(** * Monte Carlo Option Pricing Lab: a Rocq account of the repository

    Part I embeds the Python modules of the repository (the package
    [src] with its subpackages [src.models] and [src.pricing], and the
    build script [setup.py]) as syntax trees of their top-level
    statements, together with the part of Python's import system that
    executing them exercises.

    Part II models, from the specification, the simulation and
    estimation core that the package scaffolding names but does not
    contain: path generation, the pricing aggregation, the result
    aggregator and the least-squares Monte Carlo exercise estimator. *)

From Stdlib Require Import String List Bool Arith Lia ZArith.
From Stdlib Require Import Reals Lra Permutation.
From Stdlib Require PrimFloat Uint63.
Import ListNotations.
Set Warnings "-register-all -inexact-float".

(* ================================================================== *)
(** ** Part I: the Python modules *)

Module PySrc.

Local Open Scope string_scope.

(** Python expressions occurring in the modules. *)
Inductive expr : Type :=
| EStr (s : string)
| EName (x : string)
| EBool (b : bool)
| EList (es : list expr)
| EDict (kvs : list (expr * expr))
| EAttr (e : expr) (field : string)
| ECall (f : expr) (args : list expr) (kwargs : list (string * expr)).

(** Python statements.  [SImportFrom level m names] is
    [from <level dots><m> import names]; a module docstring is an
    expression statement holding a string literal. *)
Inductive stmt : Type :=
| SExpr (e : expr)
| SAssign (target : string) (e : expr)
| SImportFrom (level : nat) (module : string) (names : list string)
| SWith (ctx : expr) (as_name : string) (body : list stmt)
| SFunctionDef (name : string) (body : list stmt)
| SClassDef (name : string) (body : list stmt).

Record PyModule := {
  mod_name : string;
  mod_is_package : bool;
  mod_body : list stmt
}.

(** src/src/__init__.py *)
Definition src_init : PyModule := {|
  mod_name := "src";
  mod_is_package := true;
  mod_body := [
    SExpr (EStr "Monte Carlo Option Pricing Lab

A professional quantitative finance library for option pricing using Monte Carlo simulations.

Main Components:
    - pricing: Core pricing engines for European, American, and exotic options
    - models: Stochastic models (GBM, jump-diffusion, volatility surfaces)
    - variance_reduction: Advanced techniques (antithetic, control variates, stratified sampling)
    - portfolio: Portfolio risk analysis (VaR, CVaR, stress testing)
    - data: Market data utilities and calibration
    - utils: Helper functions and metrics
");
    SAssign "__version__" (EStr "0.1.0");
    SAssign "__author__" (EStr "Lorenzo Martínez Malvar");
    SAssign "__email__" (EStr "lorenlorenloren@gmail.com");
    SImportFrom 1 EmptyString ["pricing"];
    SImportFrom 1 EmptyString ["models"];
    SImportFrom 1 EmptyString ["variance_reduction"];
    SImportFrom 1 EmptyString ["portfolio"];
    SImportFrom 1 EmptyString ["data"];
    SImportFrom 1 EmptyString ["utils"];
    SAssign "__all__" (EList [EStr "pricing"; EStr "models";
      EStr "variance_reduction"; EStr "portfolio"; EStr "data"; EStr "utils"])
  ]
|}.

(** src/src/models/__init__.py *)
Definition models_init : PyModule := {|
  mod_name := "src.models";
  mod_is_package := true;
  mod_body := [
    SExpr (EStr "Stochastic models for option pricing.

Contains: GBM, jump-diffusion, volatility surfaces.
");
    SAssign "__all__" (EList [])
  ]
|}.

(** src/src/pricing/__init__.py *)
Definition pricing_init : PyModule := {|
  mod_name := "src.pricing";
  mod_is_package := true;
  mod_body := [
    SExpr (EStr "Option pricing engines module.

Submodules:
    - european: European call and put options
    - american: American options with LSM algorithm
    - exotic: Exotic options (Asian, Barrier, Basket)
    - engine: Base Monte Carlo simulation engine
    - greeks: Greeks calculation (Delta, Gamma, Vega, Theta)
");
    SImportFrom 1 EmptyString ["european"];
    SImportFrom 1 EmptyString ["american"];
    SImportFrom 1 EmptyString ["exotic"];
    SImportFrom 1 EmptyString ["engine"];
    SImportFrom 1 EmptyString ["greeks"];
    SAssign "__all__" (EList [EStr "european"; EStr "american";
      EStr "exotic"; EStr "engine"; EStr "greeks"])
  ]
|}.

(** src/setup.py *)
Definition setup_py : PyModule := {|
  mod_name := "setup";
  mod_is_package := false;
  mod_body := [
    SImportFrom 0 "setuptools" ["setup"; "find_packages"];
    SWith (ECall (EName "open") [EStr "README.md"; EStr "r"]
                 [("encoding", EStr "utf-8")]) "fh"
      [SAssign "long_description" (ECall (EAttr (EName "fh") "read") [] [])];
    SExpr (ECall (EName "setup") [] [
      ("name", EStr "monte-carlo-option-pricing-lab");
      ("version", EStr "0.1.0");
      ("author", EStr "Lorenzo Martínez Malvar");
      ("author_email", EStr "lorenlorenloren@gmail.com");
      ("description", EStr "Professional quantitative finance lab for option pricing using Monte Carlo simulations");
      ("long_description", EName "long_description");
      ("long_description_content_type", EStr "text/markdown");
      ("url", EStr "https://github.com/lorenlorenloren/monte-carlo-option-pricing-lab");
      ("packages", ECall (EName "find_packages") [] [("where", EStr "src")]);
      ("package_dir", EDict [(EStr EmptyString, EStr "src")]);
      ("classifiers", EList [
        EStr "Programming Language :: Python :: 3";
        EStr "Programming Language :: Python :: 3.8";
        EStr "Programming Language :: Python :: 3.9";
        EStr "Programming Language :: Python :: 3.10";
        EStr "Programming Language :: Python :: 3.11";
        EStr "License :: OSI Approved :: MIT License";
        EStr "Operating System :: OS Independent";
        EStr "Development Status :: 3 - Alpha";
        EStr "Intended Audience :: Financial and Insurance Industry";
        EStr "Intended Audience :: Education";
        EStr "Topic :: Office/Business :: Financial :: Investment"]);
      ("python_requires", EStr ">=3.8");
      ("install_requires", EList [EStr "numpy>=1.21.0"; EStr "scipy>=1.7.0";
        EStr "pandas>=1.3.0"; EStr "yfinance>=0.1.70"; EStr "matplotlib>=3.4.0"]);
      ("extras_require", EDict [
        (EStr "dev", EList [EStr "pytest"; EStr "pytest-cov"; EStr "jupyter"]);
        (EStr "gpu", EList [EStr "jax>=0.2.0"])]);
      ("include_package_data", EBool true);
      ("zip_safe", EBool false)])
  ]
|}.

(** Every Python module of the source tree. *)
Definition src_modules : list PyModule :=
  [src_init; models_init; pricing_init; setup_py].

(** The packages ([find_packages(where="src")]). *)
Definition src_packages : list PyModule :=
  filter mod_is_package src_modules.

(** The operations and components the specification names. *)
Definition spec_operations : list string :=
  ["generate"; "evaluate"; "price"; "greeks"; "merge"].
Definition spec_components : list string :=
  ["StochasticModel"; "PathGenerator"; "PayoffEvaluator";
   "ExerciseBoundaryEstimator"; "PricingEngine"; "GreeksEstimator";
   "ResultAggregator"; "PricingResult"; "SimulationConfig"].

(** Names of the callables (functions and classes) a statement defines,
    at any depth of nesting. *)
Fixpoint defined_callables (s : stmt) : list string :=
  match s with
  | SFunctionDef n body => n :: flat_map defined_callables body
  | SClassDef n body => n :: flat_map defined_callables body
  | SWith _ _ body => flat_map defined_callables body
  | _ => []
  end.

Definition module_callables (m : PyModule) : list string :=
  flat_map defined_callables (mod_body m).

(** Names a top-level statement binds in the module namespace. *)
Definition stmt_binds (s : stmt) : list string :=
  match s with
  | SAssign x _ => [x]
  | SImportFrom _ _ ns => ns
  | SWith _ x body => x :: flat_map (fun s' => match s' with
                                               | SAssign y _ => [y]
                                               | _ => [] end) body
  | SFunctionDef n _ | SClassDef n _ => [n]
  | SExpr _ => []
  end.

Definition is_import (s : stmt) : bool :=
  match s with SImportFrom _ _ _ => true | _ => false end.

Definition is_dunder (x : string) : bool :=
  String.prefix "__" x &&
  String.eqb (substring (String.length x - 2) 2 x) "__".

Definition is_str_literal (e : expr) : bool :=
  match e with EStr _ => true | _ => false end.

(** Scaffolding: a docstring, a metadata assignment of a string or a list
    of strings to a dunder name, or an import. *)
Definition is_scaffolding (s : stmt) : bool :=
  match s with
  | SExpr (EStr _) => true
  | SAssign x (EStr _) => is_dunder x
  | SAssign x (EList es) => is_dunder x && forallb is_str_literal es
  | SImportFrom _ _ _ => true
  | _ => false
  end.

Definition lookup_all (m : PyModule) : option expr :=
  fold_right (fun s acc => match s with
                           | SAssign "__all__" e => Some e
                           | _ => acc end) None (mod_body m).

(** *** The import system

    The installed layout ([package_dir={"": "src"}]) makes [src],
    [src.models] and [src.pricing] the importable modules; any other
    dotted name under [src] has no source file. *)
Definition find_source (q : string) : option PyModule :=
  find (fun m => mod_is_package m && String.eqb (mod_name m) q) src_modules.

(** Exceptions the import machinery raises.  [ModuleNotFoundError] is the
    subclass of [ImportError] raised when no module of the name exists;
    the plain [ImportError n p] is [cannot import name n from p]. *)
Inductive PyExc : Type :=
| ModuleNotFoundError (name : string)
| ImportError (cannot_import : string) (from_pkg : string)
| RecursionError.

Definition isinstance_ModuleNotFoundError (e : PyExc) : bool :=
  match e with ModuleNotFoundError _ => true | _ => false end.

Definition isinstance_ImportError (e : PyExc) : bool :=
  match e with ModuleNotFoundError _ | ImportError _ _ => true
             | RecursionError => false end.

Inductive PyResult : Type :=
| POk
| PRaise (e : PyExc).

(** The interpreter state: [sys.modules] (names of modules created, in
    initialisation or initialised) and the module namespaces. *)
Record ImpState := {
  sys_modules : list string;
  namespaces : list (string * string)  (* (module, bound name) *)
}.

Definition init_state : ImpState := {| sys_modules := []; namespaces := [] |}.

Definition in_sys_modules (q : string) (st : ImpState) : bool :=
  existsb (String.eqb q) (sys_modules st).

Definition hasattr (q x : string) (st : ImpState) : bool :=
  existsb (fun '(m, y) => String.eqb m q && String.eqb y x) (namespaces st).

Definition bind_name (q x : string) (st : ImpState) : ImpState :=
  {| sys_modules := sys_modules st; namespaces := (q, x) :: namespaces st |}.

(** Creating the module object: [sys.modules[q] = module]. *)
Definition add_module (q : string) (st : ImpState) : ImpState :=
  {| sys_modules := q :: sys_modules st; namespaces := namespaces st |}.

(** After a failed execution, [del sys.modules[q]]; the module object and
    its namespace are dropped with it. *)
Definition drop_module (q : string) (st : ImpState) : ImpState :=
  {| sys_modules := filter (fun m => negb (String.eqb m q)) (sys_modules st);
     namespaces := filter (fun '(m, _) => negb (String.eqb m q)) (namespaces st) |}.

(** [rsplit q] is [Some (parent, child)] for a dotted name. *)
Fixpoint rsplit_aux (s acc : string) (last : option (string * string))
    : option (string * string) :=
  match s with
  | EmptyString => last
  | String c rest =>
      if Ascii.eqb c (Ascii.ascii_of_nat 46)
      then rsplit_aux rest (String.append acc (String c EmptyString))
                      (Some (acc, rest))
      else rsplit_aux rest (String.append acc (String c EmptyString)) last
  end.

Definition rsplit (q : string) : option (string * string) :=
  rsplit_aux q EmptyString None.

Definition dotted (p x : string) : string :=
  String.append p (String.append "." x).

Section Exec.
(** [import] is the import function available to the statements. *)
Variable import : string -> ImpState -> PyResult * ImpState.

(** [from . import x] executed in package [pkg] (bytecode IMPORT_NAME
    with level 1, then IMPORT_FROM):
    [importlib._bootstrap._handle_fromlist] imports [pkg.x] when [pkg]
    has no attribute [x], and ignores the [ModuleNotFoundError] for
    [pkg.x] itself; IMPORT_FROM then reads the attribute, falls back on
    [sys.modules["pkg.x"]], and otherwise raises [ImportError]. *)
Definition import_from_rel (q pkg x : string) (st : ImpState)
    : PyResult * ImpState :=
  let full := dotted pkg x in
  let import_from st' :=
    if hasattr pkg x st' || in_sys_modules full st'
    then (POk, bind_name q x st')
    else (PRaise (ImportError x pkg), st') in
  if hasattr pkg x st then (POk, bind_name q x st) else
  match import full st with
  | (PRaise (ModuleNotFoundError n), st') =>
      if String.eqb n full then import_from st'
      else (PRaise (ModuleNotFoundError n), st')
  | (PRaise e, st') => (PRaise e, st')
  | (POk, st') => import_from st'
  end.

(** [from m import names] with an absolute module name. *)
Fixpoint bind_from (m q : string) (ns : list string) (st : ImpState)
    : PyResult * ImpState :=
  match ns with
  | [] => (POk, st)
  | x :: ns' =>
      if hasattr m x st then bind_from m q ns' (bind_name q x st)
      else (PRaise (ImportError x m), st)
  end.

Definition exec_stmt (q pkg : string) (s : stmt) (st : ImpState)
    : PyResult * ImpState :=
  match s with
  | SExpr _ => (POk, st)
  | SAssign x _ => (POk, bind_name q x st)
  | SImportFrom 0 m ns =>
      match import m st with
      | (POk, st') => bind_from m q ns st'
      | r => r
      end
  | SImportFrom (S _) _ ns =>
      (fix go (ns : list string) (st : ImpState) :=
         match ns with
         | [] => (POk, st)
         | x :: ns' =>
             match import_from_rel q pkg x st with
             | (POk, st') => go ns' st'
             | r => r
             end
         end) ns st
  | SWith _ x _ => (POk, bind_name q x st)
  | SFunctionDef n _ | SClassDef n _ => (POk, bind_name q n st)
  end.

Fixpoint exec_body (q pkg : string) (ss : list stmt) (st : ImpState)
    : PyResult * ImpState :=
  match ss with
  | [] => (POk, st)
  | s :: ss' =>
      match exec_stmt q pkg s st with
      | (POk, st') => exec_body q pkg ss' st'
      | r => r
      end
  end.
End Exec.

(** [importlib._bootstrap._find_and_load]: import the parent package
    first, find the module's source, register it in [sys.modules],
    execute its body (dropping it again when that raises) and bind it
    as an attribute of its parent.  [fuel] bounds the nesting depth. *)
Fixpoint import_module (fuel : nat) (q : string) (st : ImpState) {struct fuel}
    : PyResult * ImpState :=
  match fuel with
  | O => (PRaise RecursionError, st)
  | S f =>
    if in_sys_modules q st then (POk, st) else
    let parent_res :=
      match rsplit q with
      | Some (p, _) => import_module f p st
      | None => (POk, st)
      end in
    match parent_res with
    | (PRaise e, st1) => (PRaise e, st1)
    | (POk, st1) =>
      if in_sys_modules q st1 then (POk, st1) else
      match find_source q with
      | None => (PRaise (ModuleNotFoundError q), st1)
      | Some m =>
        let pkg := if mod_is_package m then q
                   else match rsplit q with Some (p, _) => p | None => EmptyString end in
        match exec_body (import_module f) q pkg (mod_body m) (add_module q st1) with
        | (PRaise e, st2) => (PRaise e, drop_module q st2)
        | (POk, st2) =>
            (POk, match rsplit q with
                  | Some (p, x) => bind_name p x st2
                  | None => st2
                  end)
        end
      end
    end
  end.

(** Repeated attempts at [import q], each from the state the previous
    one left. *)
Fixpoint attempts (fuel : nat) (q : string) (k : nat) (st : ImpState)
    : list PyResult :=
  match k with
  | O => []
  | S k' => let (r, st') := import_module fuel q st in
            r :: attempts fuel q k' st'
  end.

(** The names a package's [__all__] lists. *)
Definition all_names (m : PyModule) : list string :=
  match lookup_all m with
  | Some (EList es) => flat_map (fun e => match e with EStr x => [x] | _ => [] end) es
  | _ => []
  end.

(** *** Running a script: the build script [setup.py]

    Values, exceptions and observable effects of the statements of a
    script run as [__main__].  Files are read as already decoded text;
    functions of imported modules are external (the host's), and each
    call of one is recorded with its arguments. *)
Inductive pyval : Type :=
| VNone
| VStr (s : string)
| VBool (b : bool)
| VList (vs : list pyval)
| VDict (kvs : list (pyval * pyval))
| VBuiltin (qualname : string)
| VFile (path contents : string)
| VMethod (self : pyval) (name : string).

Inductive RunExc : Type :=
| RModuleNotFoundError (name : string)
| RImportError (name module : string)
| RFileNotFoundError (path : string)
| RNameError (x : string)
| RAttributeError (field : string)
| RTypeError.

Inductive Event : Type :=
| EvOpen (path : string)
| EvCall (qualname : string) (args : list pyval) (kwargs : list (string * pyval)).

(** The host: the importable modules with their attributes, and the
    results of external functions. *)
Record Host := {
  host_modules : string -> option (list string);
  host_call : string -> list pyval -> list (string * pyval) -> pyval
}.

(** The file system: a path's contents, if the file exists. *)
Definition FileSystem := string -> option string.

(** A state and error monad over the list of effects so far. *)
Definition Run (A : Type) : Type := list Event -> (RunExc + A) * list Event.

Definition ret {A} (a : A) : Run A := fun tr => (inr a, tr).
Definition raise {A} (x : RunExc) : Run A := fun tr => (inl x, tr).
Definition emit (ev : Event) : Run unit := fun tr => (inr tt, app tr [ev]).
Definition bind {A B} (m : Run A) (f : A -> Run B) : Run B :=
  fun tr => match m tr with
            | (inr a, tr') => f a tr'
            | (inl x, tr') => (inl x, tr')
            end.

Notation "x <- m ;; k" := (bind m (fun x => k)) (at level 61, m at next level, right associativity).
Notation "m >> k" := (bind m (fun _ => k)) (at level 61, right associativity).

Definition Env := list (string * pyval).

Fixpoint env_lookup {A} (x : string) (env : list (string * A)) : option A :=
  match env with
  | [] => None
  | (y, v) :: env' => if String.eqb x y then Some v else env_lookup x env'
  end.

(** Calling a value: the builtin [open(path, ...)], a file's [read()],
    or an external function. *)
Definition apply_call (hs : Host) (fs : FileSystem) (f : pyval) (args : list pyval)
    (kws : list (string * pyval)) : Run pyval :=
  match f with
  | VBuiltin "open" =>
      match args with
      | VStr p :: _ =>
          emit (EvOpen p) >>
          match fs p with
          | None => raise (RFileNotFoundError p)
          | Some c => ret (VFile p c)
          end
      | _ => raise RTypeError
      end
  | VBuiltin g => emit (EvCall g args kws) >> ret (host_call hs g args kws)
  | VMethod (VFile _ c) "read" => ret (VStr c)
  | _ => raise RTypeError
  end.

(** Expressions, evaluated left to right. *)
Fixpoint eval_expr (hs : Host) (fs : FileSystem) (env : Env) (e : expr) {struct e}
    : Run pyval :=
  match e with
  | EStr x => ret (VStr x)
  | EBool b => ret (VBool b)
  | EName x =>
      match env_lookup x env with
      | Some v => ret v
      | None => if String.eqb x "open" then ret (VBuiltin "open") else raise (RNameError x)
      end
  | EList es =>
      vs <- (fix go (es : list expr) : Run (list pyval) :=
               match es with
               | [] => ret []
               | e1 :: es' => v <- eval_expr hs fs env e1 ;; vs <- go es' ;; ret (v :: vs)
               end) es ;;
      ret (VList vs)
  | EDict kvs =>
      ps <- (fix go (kvs : list (expr * expr)) : Run (list (pyval * pyval)) :=
               match kvs with
               | [] => ret []
               | (k, v) :: kvs' =>
                   kv <- eval_expr hs fs env k ;; vv <- eval_expr hs fs env v ;;
                   ps <- go kvs' ;; ret ((kv, vv) :: ps)
               end) kvs ;;
      ret (VDict ps)
  | EAttr e1 field =>
      v <- eval_expr hs fs env e1 ;;
      match v with
      | VFile _ _ => if String.eqb field "read" then ret (VMethod v "read")
                     else raise (RAttributeError field)
      | _ => raise (RAttributeError field)
      end
  | ECall f args kws =>
      fv <- eval_expr hs fs env f ;;
      avs <- (fix go (es : list expr) : Run (list pyval) :=
                match es with
                | [] => ret []
                | e1 :: es' => v <- eval_expr hs fs env e1 ;; vs <- go es' ;; ret (v :: vs)
                end) args ;;
      kvs <- (fix go (kws : list (string * expr)) : Run (list (string * pyval)) :=
                match kws with
                | [] => ret []
                | (x, e1) :: kws' => v <- eval_expr hs fs env e1 ;; vs <- go kws' ;; ret ((x, v) :: vs)
                end) kws ;;
      apply_call hs fs fv avs kvs
  end.

(** [from m import names] in a script: the names are read off the
    imported module. *)
Fixpoint import_names (m : string) (attrs : list string) (ns : list string) (env : Env)
    : Run Env :=
  match ns with
  | [] => ret env
  | x :: ns' =>
      if existsb (String.eqb x) attrs
      then import_names m attrs ns' ((x, VBuiltin (dotted m x)) :: env)
      else raise (RImportError x m)
  end.

(** Statements of a script; [with e as x: body] binds the context
    manager's value (a file is its own) and runs the body. *)
Fixpoint exec_script_stmt (hs : Host) (fs : FileSystem) (env : Env) (s : stmt) {struct s}
    : Run Env :=
  match s with
  | SExpr e => eval_expr hs fs env e >> ret env
  | SAssign x e => v <- eval_expr hs fs env e ;; ret ((x, v) :: env)
  | SImportFrom 0 m ns =>
      match host_modules hs m with
      | None => raise (RModuleNotFoundError m)
      | Some attrs => import_names m attrs ns env
      end
  | SImportFrom (S _) _ ns => raise (RImportError (hd EmptyString ns) EmptyString)
  | SWith ctx x body =>
      v <- eval_expr hs fs env ctx ;;
      (fix go (env : Env) (ss : list stmt) : Run Env :=
         match ss with
         | [] => ret env
         | s1 :: ss' => env' <- exec_script_stmt hs fs env s1 ;; go env' ss'
         end) ((x, v) :: env) body
  | SFunctionDef n _ | SClassDef n _ => ret ((n, VNone) :: env)
  end.

Fixpoint exec_script (hs : Host) (fs : FileSystem) (env : Env) (ss : list stmt) : Run Env :=
  match ss with
  | [] => ret env
  | s1 :: ss' => env' <- exec_script_stmt hs fs env s1 ;; exec_script hs fs env' ss'
  end.

(** [python setup.py]: the script's outcome and its effects. *)
Definition run_setup (hs : Host) (fs : FileSystem) : (RunExc + Env) * list Event :=
  exec_script hs fs [] (mod_body setup_py) [].

(** *** Concrete instances *)

(** A host with setuptools installed, and one without it. *)
Definition setuptools_host : Host := {|
  host_modules := fun m => if String.eqb m "setuptools"
                           then Some ["setup"; "find_packages"] else None;
  host_call := fun _ _ _ => VNone |}.

Definition bare_host : Host := {|
  host_modules := fun _ => None;
  host_call := fun _ _ _ => VNone |}.

(** A checkout with README.md, and one without it. *)
Definition readme_fs : FileSystem :=
  fun p => if String.eqb p "README.md" then Some "# Monte Carlo Option Pricing Lab" else None.

Definition no_readme_fs : FileSystem := fun _ => None.

(** An import function under which every module exists and imports
    without error. *)
Definition ok_import (q : string) (st : ImpState) : PyResult * ImpState :=
  (POk, add_module q st).

(** The attributes bound in [st] are still bound in [st']. *)
Definition keeps (st st' : ImpState) : Prop :=
  forall m y, hasattr m y st = true -> hasattr m y st' = true.

(** Statements that run without error whenever every import succeeds: docstrings,
    assignments and relative imports. *)
Definition runs_ok (s : stmt) : bool :=
  match s with
  | SExpr _ | SAssign _ _ | SImportFrom (S _) _ _ => true
  | _ => false
  end.

End PySrc.


(* ================================================================== *)
(** ** Part II: the simulation and estimation core

    The package scaffolding imports [pricing.european], [pricing.american],
    [pricing.engine], [pricing.greeks] and [variance_reduction], none of
    which is in the repository; the definitions below model them from
    the specification.  Arithmetic is exact (real numbers): the models
    say nothing about floating-point rounding. *)

Module MC.
Local Open Scope R_scope.

(** Modelled from the spec: the seeded random source of section 4.1
    ("every random stream is an explicit, owned generator instance
    seeded per call").  [normal s n] is the [n]-th standard normal
    variate of the sequence seeded by [s], [uniform s n] its [n]-th
    uniform variate on (0,1), [inv_norm_cdf] the inverse normal CDF and
    [jump_logreturn mean mu sd s n] the summed log jump sizes of one
    step (a Poisson(mean) count of lognormal(mu, sd) jumps) drawn from
    the [n]-th entry of the jump stream. *)
Record RandomSource := {
  normal : Z -> nat -> R;
  uniform : Z -> nat -> R;
  inv_norm_cdf : R -> R;
  jump_logreturn : R -> R -> R -> Z -> nat -> R
}.

(** Modelled from the spec: the numerical kernels the core relies on.
    [cholesky] factors a correlation matrix ([None] when the matrix
    cannot be factored), [lstsq A y] solves the least-squares problem
    by a rank-robust method ([None] is the [SingularRegression]
    condition) and [z_quantile] is the two-sided normal quantile of a
    confidence level. *)
Record Numerics := {
  cholesky : list (list R) -> option (list (list R));
  lstsq : list (list R) -> list R -> option (list R);
  z_quantile : R -> R
}.

(** Modelled from the spec: the data model of section 3. *)
Inductive AssetModel : Type :=
| GeometricBrownianMotion (spot drift volatility : R)
| MertonJumpDiffusion (spot drift volatility jump_intensity jump_mean jump_std : R).

Inductive StochasticModel : Type :=
| Single (a : AssetModel)
| MultiAsset (correlation_matrix : list (list R)) (assets : list AssetModel).

Record VarianceReductionPlan := {
  antithetic : bool;
  stratified : bool
}.

Record SimulationConfig := {
  num_paths : Z;
  num_steps : Z;
  horizon : R;
  seed : Z;
  plan : VarianceReductionPlan;
  confidence_level : R
}.

(** A path set: path, then time step (times dt, 2 dt, ..., T), then asset. *)
Definition Path := list (list R).
Definition PathSet := list Path.

Inductive PricingError := InvalidModelParameters.

Inductive result (A : Type) : Type :=
| Ok (a : A)
| Err (e : PricingError).
Arguments Ok {A} a.
Arguments Err {A} e.

Inductive OptionType := Call | Put.

Inductive PayoffSpec : Type :=
| European (strike : R) (ty : OptionType)
| American (strike : R) (ty : OptionType).

Record PricingResult := {
  estimate : R;
  std_error : R;
  ci_low : R;
  ci_high : R;
  effective_paths : nat
}.

Definition default_asset : AssetModel := GeometricBrownianMotion 0 0 0.

Definition asset_spot (a : AssetModel) : R :=
  match a with
  | GeometricBrownianMotion s _ _ | MertonJumpDiffusion s _ _ _ _ _ => s
  end.

Definition asset_drift (a : AssetModel) : R :=
  match a with
  | GeometricBrownianMotion _ mu _ | MertonJumpDiffusion _ mu _ _ _ _ => mu
  end.

Definition asset_volatility (a : AssetModel) : R :=
  match a with
  | GeometricBrownianMotion _ _ v | MertonJumpDiffusion _ _ v _ _ _ => v
  end.

Definition model_assets (m : StochasticModel) : list AssetModel :=
  match m with Single a => [a] | MultiAsset _ assets => assets end.

(** The risk-free rate: the (risk-neutral) drift of the first asset. *)
Definition rate (m : StochasticModel) : R :=
  asset_drift (nth 0 (model_assets m) default_asset).

(** "Discretization: step size dt = T / num_steps." *)
Definition dt (c : SimulationConfig) : R := horizon c / IZR (num_steps c).

Definition steps (c : SimulationConfig) : nat := Z.to_nat (num_steps c).
Definition paths (c : SimulationConfig) : nat := Z.to_nat (num_paths c).

Fixpoint dot (xs ys : list R) : R :=
  match xs, ys with
  | x :: xs', y :: ys' => x * y + dot xs' ys'
  | _, _ => 0
  end.

Definition sum (l : list R) : R := fold_right Rplus 0 l.

Definition sumsq (l : list R) : R := sum (map (fun x => x ^ 2) l).

(** *** PathGenerator *)

Definition vol_ok (a : AssetModel) : bool :=
  if Rlt_dec 0 (asset_volatility a) then true else false.

(** Modelled from the spec: parameter validation ("num_paths <= 0,
    num_steps <= 0, dt <= 0, or non-factorizable correlation matrix ->
    InvalidModelParameters"; non-positive volatility likewise).  It
    yields the assets and the Cholesky factor used by the simulation. *)
Definition validate (nm : Numerics) (m : StochasticModel) (c : SimulationConfig)
    : option (list AssetModel * list (list R)) :=
  if (num_paths c <=? 0)%Z then None
  else if (num_steps c <=? 0)%Z then None
  else if Rle_dec (dt c) 0 then None
  else match m with
       | Single a => if vol_ok a then Some ([a], [[1]]) else None
       | MultiAsset corr assets =>
           if forallb vol_ok assets then
             match cholesky nm corr with
             | Some l => Some (assets, l)
             | None => None
             end
           else None
       end.

(** Modelled from the spec: the random draws of section 4.1.  The
    variates of path block [b] (a path, or an antithetic pair) occupy the
    block of the global sequence starting at [b * N * d]: a disjoint
    sub-stream per block, so a worker owning a range of paths reads the
    same variates whatever the number of workers. *)
Definition draw_index (N d b j a : nat) : nat := ((b * N + j) * d + a)%nat.

Definition n_blocks (c : SimulationConfig) : nat :=
  if antithetic (plan c) then ((paths c + 1) / 2)%nat else paths c.

Definition block_of (c : SimulationConfig) (i : nat) : nat :=
  if antithetic (plan c) then (i / 2)%nat else i.

(** The driving normal of block [b]: a plain draw, or under stratified
    sampling the inverse normal CDF of a uniform draw inside the [b]-th
    of [n_blocks] equal-probability strata. *)
Definition base_normal (rs : RandomSource) (c : SimulationConfig)
    (N d b j a : nat) : R :=
  let n := draw_index N d b j a in
  if stratified (plan c)
  then inv_norm_cdf rs ((INR b + uniform rs (seed c) n) / INR (n_blocks c))
  else normal rs (seed c) n.

(** Antithetic pairing: path [2k] uses the draw [Z] of block [k], path
    [2k+1] uses [-Z]. *)
Definition path_normal (rs : RandomSource) (c : SimulationConfig)
    (N d i j a : nat) : R :=
  let z := base_normal rs c N d (block_of c i) j a in
  if antithetic (plan c) && Nat.odd i then - z else z.

(** The log-price increment of asset [a] at step [j] of path [i], the
    independent normals of the step being [zs j]: correlation through
    the Cholesky factor [l], then the GBM increment, plus the jump part
    for a jump-diffusion. *)
Definition log_increment (rs : RandomSource) (c : SimulationConfig)
    (N d : nat) (assets : list AssetModel) (l : list (list R))
    (zs : nat -> nat -> R) (i j a : nat) : R :=
  let h := dt c in
  let w := dot (nth a l []) (map (zs j) (seq 0 d)) in
  match nth a assets default_asset with
  | GeometricBrownianMotion _ mu sigma =>
      (mu - 0.5 * sigma ^ 2) * h + sigma * sqrt h * w
  | MertonJumpDiffusion _ mu sigma lam jm js =>
      (mu - 0.5 * sigma ^ 2) * h + sigma * sqrt h * w
      + jump_logreturn rs (lam * h) jm js (seed c) (draw_index N d i j a)
  end.

(** Price of asset [a] at step [j]: spot times the exponential of the
    cumulated increments of steps [0..j]. *)
Definition price_from (rs : RandomSource) (c : SimulationConfig)
    (N d : nat) (assets : list AssetModel) (l : list (list R))
    (zs : nat -> nat -> R) (i j a : nat) : R :=
  asset_spot (nth a assets default_asset) *
  exp (sum (map (fun m => log_increment rs c N d assets l zs i m a) (seq 0 (S j)))).

Definition path_from (rs : RandomSource) (c : SimulationConfig)
    (assets : list AssetModel) (l : list (list R))
    (zs : nat -> nat -> R) (i : nat) : Path :=
  let N := steps c in let d := length assets in
  map (fun j => map (fun a => price_from rs c N d assets l zs i j a) (seq 0 d))
      (seq 0 N).

Definition path_of (rs : RandomSource) (c : SimulationConfig)
    (assets : list AssetModel) (l : list (list R)) (i : nat) : Path :=
  path_from rs c assets l (path_normal rs c (steps c) (length assets) i) i.

(** The simulation proper, recording the (path, step) cells it computes. *)
Definition simulate (rs : RandomSource) (c : SimulationConfig)
    (v : list AssetModel * list (list R)) : PathSet * list (nat * nat) :=
  let (assets, l) := v in
  let cells := map (fun i => map (fun j => ((i, j), nth j (path_of rs c assets l i) []))
                                 (seq 0 (steps c)))
                   (seq 0 (paths c)) in
  (map (map snd) cells, concat (map (map fst) cells)).

(** [generate(model, config) -> PathSet], with the simulation work done. *)
Definition generate_traced (rs : RandomSource) (nm : Numerics)
    (m : StochasticModel) (c : SimulationConfig)
    : result PathSet * list (nat * nat) :=
  match validate nm m c with
  | None => (Err InvalidModelParameters, [])
  | Some v => let (ps, work) := simulate rs c v in (Ok ps, work)
  end.

Definition generate rs nm m c : result PathSet := fst (generate_traced rs nm m c).

(** Section 5: W workers, worker [w] owning the [w]-th range of paths
    ([sizes] lists the range lengths); the ranges start at offset 0. *)
Fixpoint ranges (start : nat) (sizes : list nat) : list (nat * nat) :=
  match sizes with
  | [] => []
  | s :: sizes' => (start, s) :: ranges (start + s) sizes'
  end.

Definition worker_paths rs c (v : list AssetModel * list (list R))
    (r : nat * nat) : PathSet :=
  let (assets, l) := v in map (path_of rs c assets l) (seq (fst r) (snd r)).

Definition generate_parallel rs nm m c (sizes : list nat) : result PathSet :=
  match validate nm m c with
  | None => Err InvalidModelParameters
  | Some v => Ok (concat (map (worker_paths rs c v) (ranges 0 sizes)))
  end.

(** *** PayoffEvaluator and ExerciseBoundaryEstimator *)

Definition exercise_value (ty : OptionType) (k s : R) : R :=
  match ty with
  | Call => Rmax (s - k) 0
  | Put => Rmax (k - s) 0
  end.

(** The state of a single-asset path at step [t]. *)
Definition state_at (p : Path) (t : nat) : R := nth 0 (nth t p []) 0.

(** "a fixed polynomial basis expansion of the current state (state,
    state^2, state^3 by default)". *)
Definition basis (x : R) : list R := [x; x ^ 2; x ^ 3].
Definition basis_size : nat := 3.

Definition itm (h : R -> R) (x : R) : bool :=
  if Rlt_dec 0 (h x) then true else false.

(** Modelled from the spec: the regression data of a step, the
    in-the-money paths' states and realized future cash flows
    discounted one step. *)
Definition regression_data (h : R -> R) (disc : R) (ps : PathSet) (t : nat)
    (cf : list R) : list (R * R) :=
  map (fun '(x, c) => (x, disc * c))
      (filter (fun '(x, _) => itm h x)
              (combine (map (fun p => state_at p t) ps) cf)).

(** Modelled from the spec: the fitted continuation value, zero when
    fewer in-the-money paths than basis terms exist (regression
    skipped) and when the least-squares solver reports
    [SingularRegression]. *)
Definition continuation (nm : Numerics) (data : list (R * R)) : R -> R :=
  if Nat.ltb (length data) basis_size then fun _ => 0
  else match lstsq nm (map (fun '(x, _) => basis x) data) (map snd data) with
       | Some beta => fun x => dot beta (basis x)
       | None => fun _ => 0
       end.

(** Modelled from the spec: one backward step of section 4.3 at time
    step [t]; [cf] holds the cash flows valued at step [t+1]. *)
Definition lsm_step (nm : Numerics) (h : R -> R) (disc : R) (ps : PathSet)
    (t : nat) (cf : list R) : list R :=
  let cont := continuation nm (regression_data h disc ps t cf) in
  map (fun '(x, c) =>
         if itm h x
         then if Rlt_dec (cont x) (h x) then h x else disc * c
         else disc * c)
      (combine (map (fun p => state_at p t) ps) cf).

(** Steps [t-1], [t-2], ..., [0]. *)
Fixpoint backward (nm : Numerics) (h : R -> R) (disc : R) (ps : PathSet)
    (t : nat) (cf : list R) : list R :=
  match t with
  | O => cf
  | S t' => backward nm h disc ps t' (lsm_step nm h disc ps t' cf)
  end.

Definition terminal_cashflows (h : R -> R) (N : nat) (ps : PathSet) : list R :=
  map (fun p => h (state_at p (N - 1))) ps.

(** Modelled from the spec: the cash flows valued at the first step,
    from the terminal payoffs stepped back from step [N-2] to step 0. *)
Definition lsm_cashflows (nm : Numerics) (h : R -> R) (disc : R) (N : nat)
    (ps : PathSet) : list R :=
  backward nm h disc ps (N - 1) (terminal_cashflows h N ps).

(** The cash flows valued at step [N - 1 - k]: the terminal payoffs of
    step [N - 1] stepped back [k] times. *)
Fixpoint cf_down (nm : Numerics) (h : R -> R) (disc : R) (N : nat) (ps : PathSet)
    (k : nat) : list R :=
  match k with
  | O => terminal_cashflows h N ps
  | S k' => lsm_step nm h disc ps (N - 1 - S k') (cf_down nm h disc N ps k')
  end.

Definition cashflows_at (nm : Numerics) (h : R -> R) (disc : R) (N : nat)
    (ps : PathSet) (t : nat) : list R :=
  cf_down nm h disc N ps (N - 1 - t).

(** The exercise test of [lsm_step] at step [t] for path [p], the cash
    flows of step [t+1] being [cf]: in the money, and the payoff above
    the fitted continuation value. *)
Definition exercises (nm : Numerics) (h : R -> R) (disc : R) (ps : PathSet)
    (t : nat) (cf : list R) (p : Path) : bool :=
  let x := state_at p t in
  let cont := continuation nm (regression_data h disc ps t cf) in
  itm h x && (if Rlt_dec (cont x) (h x) then true else false).

(** The first of the steps [t, t+1, ..., t+n-1] passing [f], or [t+n]. *)
Fixpoint first_true (f : nat -> bool) (t n : nat) : nat :=
  match n with
  | O => t
  | S n' => if f t then t else first_true f (S t) n'
  end.

(** The step at which the LSM policy exercises path [i]: the first step
    [t <= N-2] whose exercise test passes against the cash flows of step
    [t+1], and the last step [N-1] when there is none. *)
Definition exercise_step (nm : Numerics) (h : R -> R) (disc : R) (N : nat)
    (ps : PathSet) (i : nat) : nat :=
  first_true (fun t => exercises nm h disc ps t (cashflows_at nm h disc N ps (S t))
                                 (nth i ps []))
             0 (N - 1).

(** *** PricingEngine *)

Definition mean (l : list R) : R := sum l / INR (length l).

Definition m2 (l : list R) : R := sum (map (fun x => (x - mean l) ^ 2) l).

Definition mk_result (z : R) (n : nat) (est se : R) : PricingResult :=
  {| estimate := est; std_error := se;
     ci_low := est - z * se; ci_high := est + z * se;
     effective_paths := n |}.

(** Modelled from the spec: mean, sample standard deviation, standard
    error = std / sqrt(effective_paths), normal confidence interval. *)
Definition aggregate (z : R) (obs : list R) : PricingResult :=
  let n := INR (length obs) in
  mk_result z (length obs) (mean obs) (sqrt (m2 obs / (n - 1)) / sqrt n).

(** Antithetic pairs contribute one observation each, the average of
    their two values. *)
Fixpoint pair_avg (l : list R) : list R :=
  match l with
  | x :: y :: l' => (x + y) / 2 :: pair_avg l'
  | _ => l
  end.

Definition observations (c : SimulationConfig) (cfs : list R) : list R :=
  if antithetic (plan c) then pair_avg cfs else cfs.

(** Modelled from the spec: per-path discounted cash flows, European
    (discounted terminal payoff) or American (LSM, discounted from the
    first step to time 0). *)
Definition cashflows (nm : Numerics) (m : StochasticModel) (c : SimulationConfig)
    (spec : PayoffSpec) (ps : PathSet) : list R :=
  let r := rate m in
  let N := steps c in
  match spec with
  | European k ty =>
      map (fun p => exp (- (r * horizon c)) * exercise_value ty k (state_at p (N - 1))) ps
  | American k ty =>
      let disc := exp (- (r * dt c)) in
      map (fun x => disc * x) (lsm_cashflows nm (exercise_value ty k) disc N ps)
  end.

(** [price(model, config, spec) -> PricingResult]. *)
Definition price (rs : RandomSource) (nm : Numerics) (m : StochasticModel)
    (c : SimulationConfig) (spec : PayoffSpec) : result PricingResult :=
  match generate rs nm m c with
  | Err e => Err e
  | Ok ps => Ok (aggregate (z_quantile nm (confidence_level c))
                           (observations c (cashflows nm m c spec ps)))
  end.

(** *** ResultAggregator *)

(** The sum of squared deviations a result stands for:
    se^2 * n * (n - 1). *)
Definition m2_of (r : PricingResult) : R :=
  let n := INR (effective_paths r) in std_error r ^ 2 * n * (n - 1).

(** Modelled from the spec: pooled mean and standard error of two
    batches, weighted by their effective path counts. *)
Definition merge2 (z : R) (a b : PricingResult) : PricingResult :=
  let na := INR (effective_paths a) in
  let nb := INR (effective_paths b) in
  let n := na + nb in
  let est := (na * estimate a + nb * estimate b) / n in
  let delta := estimate b - estimate a in
  let m2n := m2_of a + m2_of b + delta ^ 2 * na * nb / n in
  mk_result z (effective_paths a + effective_paths b) est
            (sqrt (m2n / (n - 1)) / sqrt n).

(** [merge(results)] over an ordered sequence of batches. *)
Definition merge (z : R) (rs : list PricingResult) : option PricingResult :=
  match rs with
  | [] => None
  | r :: rs' => Some (fold_left (merge2 z) rs' r)
  end.

(** Section 5: each worker prices its own range of paths and returns a
    local result, merged after all workers complete (here in exact real
    arithmetic; [Binary64.price_parallel] below rounds).  The American
    estimator synchronises every step across all paths, so it runs on
    the whole path set the workers produced. *)
Definition price_parallel (rs : RandomSource) (nm : Numerics)
    (m : StochasticModel) (c : SimulationConfig) (spec : PayoffSpec)
    (sizes : list nat) : result PricingResult :=
  let z := z_quantile nm (confidence_level c) in
  match validate nm m c with
  | None => Err InvalidModelParameters
  | Some v =>
      let batches := map (worker_paths rs c v) (ranges 0 sizes) in
      match spec with
      | European _ _ =>
          match merge z (map (fun ps => aggregate z (observations c (cashflows nm m c spec ps)))
                             batches) with
          | Some r => Ok r
          | None => Ok (aggregate z [])
          end
      | American _ _ =>
          Ok (aggregate z (observations c (cashflows nm m c spec (concat batches))))
      end
  end.

(** The sufficient statistics of a batch: count, sum and sum of squares
    of its observations, as recovered from a result, and the result a
    set of statistics determines. *)
Definition pooled_sum (r : PricingResult) : R :=
  INR (effective_paths r) * estimate r.

Definition pooled_sumsq (r : PricingResult) : R :=
  m2_of r + INR (effective_paths r) * estimate r ^ 2.

Definition build (z : R) (n : nat) (s q : R) : PricingResult :=
  mk_result z n (s / INR n)
            (sqrt ((q - s ^ 2 / INR n) / (INR n - 1)) / sqrt (INR n)).

(** Statistics some multiset of [n] observations can have. *)
Definition stats_ok (n : nat) (s q : R) : Prop :=
  (n = 0%nat -> s = 0 /\ q = 0) /\
  (n = 1%nat -> q = s ^ 2) /\
  ((2 <= n)%nat -> 0 <= q - s ^ 2 / INR n).

(** *** The reduction in binary64 arithmetic

    The definitions above compute in exact real arithmetic.  This module
    evaluates the European pricing aggregation and the merge of the
    workers' results with the IEEE binary64 operations a floating-point
    implementation performs ([PrimFloat]: correctly rounded addition,
    subtraction, multiplication, division and square root), for a plain
    plan.  It starts from the binary64 PathSet the workers produced:
    worker [w] owns the [w]-th range of paths (section 5), and the paths
    a worker computes on its own are those of the single-worker run
    ([generate_parallel] above). *)
Module Binary64.
Import PrimFloat.
Local Open Scope float_scope.

Definition Path := list (list float).
Definition PathSet := list Path.

Record PricingResult := {
  estimate : float;
  std_error : float;
  ci_low : float;
  ci_high : float;
  effective_paths : nat
}.

(** [float(n)]. *)
Definition of_nat (n : nat) : float := of_uint63 (Uint63.of_Z (Z.of_nat n)).

Definition sum (l : list float) : float := fold_right add 0 l.

Definition mean (l : list float) : float := sum l / of_nat (length l).

Definition m2 (l : list float) : float :=
  sum (map (fun x => (x - mean l) * (x - mean l)) l).

Definition mk_result (z : float) (n : nat) (est se : float) : PricingResult :=
  {| estimate := est; std_error := se;
     ci_low := est - z * se; ci_high := est + z * se;
     effective_paths := n |}.

Definition aggregate (z : float) (obs : list float) : PricingResult :=
  let n := of_nat (length obs) in
  mk_result z (length obs) (mean obs) (sqrt (m2 obs / (n - 1)) / sqrt n).

Definition m2_of (r : PricingResult) : float :=
  let n := of_nat (effective_paths r) in std_error r * std_error r * n * (n - 1).

Definition merge2 (z : float) (a b : PricingResult) : PricingResult :=
  let na := of_nat (effective_paths a) in
  let nb := of_nat (effective_paths b) in
  let n := na + nb in
  let est := (na * estimate a + nb * estimate b) / n in
  let delta := estimate b - estimate a in
  let m2n := m2_of a + m2_of b + delta * delta * na * nb / n in
  mk_result z (effective_paths a + effective_paths b) est
            (sqrt (m2n / (n - 1)) / sqrt n).

Definition merge (z : float) (rs : list PricingResult) : option PricingResult :=
  match rs with
  | [] => None
  | r :: rs' => Some (fold_left (merge2 z) rs' r)
  end.

Definition max (x y : float) : float := if x <=? y then y else x.

Definition exercise_value (ty : OptionType) (k s : float) : float :=
  match ty with
  | Call => max (s - k) 0
  | Put => max (k - s) 0
  end.

Definition state_at (p : Path) (t : nat) : float := nth 0 (nth t p []) 0.

(** European cash flows, [disc] being the discount factor exp(-rT) as
    the math library rounds it. *)
Definition european_cashflows (disc k : float) (ty : OptionType) (N : nat)
    (ps : PathSet) : list float :=
  map (fun p => disc * exercise_value ty k (state_at p (N - 1))) ps.

Definition price (z disc k : float) (ty : OptionType) (N : nat) (ps : PathSet)
    : PricingResult :=
  aggregate z (european_cashflows disc k ty N ps).

Definition worker_batches (ps : PathSet) (sizes : list nat) : list PathSet :=
  map (fun r => firstn (snd r) (skipn (fst r) ps)) (ranges 0 sizes).

Definition price_parallel (z disc k : float) (ty : OptionType) (N : nat)
    (ps : PathSet) (sizes : list nat) : PricingResult :=
  match merge z (map (fun b => aggregate z (european_cashflows disc k ty N b))
                     (worker_batches ps sizes)) with
  | Some r => r
  | None => aggregate z []
  end.

(** A put of strike 1 at zero rate (discount factor 1), z = 1.96, over
    four one-step paths ending at 0.1, 0.2, 0.3 and 0.4. *)
Definition cex_z : float := 1.96.
Definition cex_disc : float := 1.
Definition cex_strike : float := 1.
Definition cex_paths : PathSet := [[[0.1]]; [[0.2]]; [[0.3]]; [[0.4]]].

End Binary64.

(** *** Concrete instances *)

(** A random source whose draws are all zero, and numerical kernels
    that factor every matrix but report every regression singular. *)
Definition zero_source : RandomSource :=
  {| normal := fun _ _ => 0; uniform := fun _ _ => 0.5;
     inv_norm_cdf := fun _ => 0; jump_logreturn := fun _ _ _ _ _ => 0 |}.

Definition singular_numerics : Numerics :=
  {| cholesky := fun m => Some m; lstsq := fun _ _ => None;
     z_quantile := fun _ => 1.96 |}.

(** Kernels for which no correlation matrix factors. *)
Definition failing_cholesky : Numerics :=
  {| cholesky := fun _ => None; lstsq := fun _ _ => None;
     z_quantile := fun _ => 1.96 |}.

Definition plain_plan : VarianceReductionPlan :=
  {| antithetic := false; stratified := false |}.

Definition antithetic_plan : VarianceReductionPlan :=
  {| antithetic := true; stratified := false |}.

(** A single-asset put, one path of two steps. *)
Definition cex_model : StochasticModel :=
  Single (GeometricBrownianMotion 100 0 1).

Definition cex_config : SimulationConfig :=
  {| num_paths := 1; num_steps := 2; horizon := 2; seed := 0;
     plan := plain_plan; confidence_level := 0.95 |}.

(** Draws taking the path from 100 to 90, then to 50. *)
Definition cex_source : RandomSource :=
  {| normal := fun _ n => match n with
                          | O => ln (9 / 10) + 0.5
                          | _ => ln (5 / 9) + 0.5
                          end;
     uniform := fun _ _ => 0.5; inv_norm_cdf := fun _ => 0;
     jump_logreturn := fun _ _ _ _ _ => 0 |}.

Definition cex_paths : PathSet := [[[90]; [50]]].

(** An antithetic configuration: three paths of two steps. *)
Definition anti_config : SimulationConfig :=
  {| num_paths := 3; num_steps := 2; horizon := 1; seed := 7;
     plan := antithetic_plan; confidence_level := 0.95 |}.

End MC.

(* ================================================================== *)
(** ** Part III: theorems about the Python modules *)

Module PySrcFacts.
Import PySrc.
Local Open Scope string_scope.

(** The first failing statement of each package body. *)
Lemma import_src_from : forall f,
  import_module (5 + f) "src" init_state =
  (PRaise (ImportError "european" "src.pricing"), init_state).
Proof. intros f. reflexivity. Qed.

Lemma import_pricing_from : forall f,
  import_module (5 + f) "src.pricing" init_state =
  (PRaise (ImportError "european" "src.pricing"), init_state).
Proof. intros f. reflexivity. Qed.

Lemma attempts_from_init : forall fuel q e k,
  import_module fuel q init_state = (PRaise e, init_state) ->
  attempts fuel q k init_state = repeat (PRaise e) k.
Proof.
  intros fuel q e k H. induction k as [|k IH]; simpl; [reflexivity|].
  rewrite H. f_equal. exact IH.
Qed.

(** C1: the repository holds no simulation or pricing logic.  No module
    of the source tree defines a function or a class; the only
    statements binding a name of the specification's operations or
    components are imports (of [greeks], a submodule that does not
    exist); the packages ([src], [src.models], [src.pricing]) consist
    only of docstrings, metadata assignments to dunder names and
    imports; and [src.models] sets [__all__] to the empty list. *)
Theorem C1_no_pricing_logic :
  (forall m, In m src_modules -> module_callables m = []) /\
  (forall m s x, In m src_modules -> In s (mod_body m) ->
     In x (spec_operations ++ spec_components) -> In x (stmt_binds s) ->
     is_import s = true /\ find_source (dotted (mod_name m) x) = None) /\
  map mod_name src_packages = ["src"; "src.models"; "src.pricing"] /\
  (forall m, In m src_packages -> forallb is_scaffolding (mod_body m) = true) /\
  lookup_all models_init = Some (EList []).
Proof.
  split; [|split; [|split; [|split]]].
  - intros m Hm; simpl in Hm.
    repeat (destruct Hm as [<- | Hm]; [reflexivity|]); contradiction.
  - intros m s x Hm Hs Hx Hb; simpl in Hm.
    repeat (destruct Hm as [<- | Hm]; [simpl in Hs;
      repeat (destruct Hs as [<- | Hs];
              [simpl in Hb; simpl in Hx;
               repeat (destruct Hb as [<- | Hb];
                 [repeat (destruct Hx as [Hx | Hx];
                          [discriminate Hx || (subst; split; reflexivity)|]);
                  contradiction|]);
               contradiction|]);
      contradiction|]); contradiction.
  - reflexivity.
  - intros m Hm; simpl in Hm.
    repeat (destruct Hm as [<- | Hm]; [reflexivity|]); contradiction.
  - reflexivity.
Qed.

(** C2 (as stated, refuted): the import of [src] does raise, but the
    exception is a plain [ImportError] ("cannot import name 'european'
    from 'src.pricing'"), which is not a [ModuleNotFoundError]. *)
Lemma C2_raises_ImportError_not_ModuleNotFoundError :
  import_module 10 "src" init_state =
    (PRaise (ImportError "european" "src.pricing"), init_state) /\
  isinstance_ModuleNotFoundError (ImportError "european" "src.pricing") = false.
Proof. split; reflexivity. Qed.

(** C2 (amended): every attempt to import the top-level package [src],
    and every attempt to import [src.pricing] alone, raises the plain
    [ImportError] "cannot import name 'european' from 'src.pricing'":
    [src/__init__] first imports [pricing], whose first statement
    [from . import european] names a missing submodule, so the imports
    of [models], [variance_reduction], [portfolio], [data] and [utils]
    are never reached; each failed attempt leaves [sys.modules] as it
    was, so the next attempt fails the same way.  The exception is an
    [ImportError] and not a [ModuleNotFoundError]. *)
Theorem C2_import_fails_with_ImportError : forall f k,
  attempts (5 + f) "src" k init_state =
    repeat (PRaise (ImportError "european" "src.pricing")) k /\
  attempts (5 + f) "src.pricing" k init_state =
    repeat (PRaise (ImportError "european" "src.pricing")) k /\
  isinstance_ImportError (ImportError "european" "src.pricing") = true /\
  isinstance_ModuleNotFoundError (ImportError "european" "src.pricing") = false.
Proof.
  intros f k. split; [|split; [|split]].
  - apply attempts_from_init, import_src_from.
  - apply attempts_from_init, import_pricing_from.
  - reflexivity.
  - reflexivity.
Qed.

(** *** Running setup.py *)

Lemma in_existsb_eqb : forall x l, In x l -> existsb (String.eqb x) l = true.
Proof.
  intros x l H. apply existsb_exists. exists x. split; [exact H|apply String.eqb_refl].
Qed.

(** [python setup.py] without setuptools installed stops at its first
    line with [ModuleNotFoundError: setuptools]: README.md is never
    opened and [setup] is never called. *)
Theorem run_setup_no_setuptools : forall hs fs,
  host_modules hs "setuptools" = None ->
  run_setup hs fs = (inl (RModuleNotFoundError "setuptools"), []).
Proof.
  intros hs fs H. unfold run_setup. lazy -[host_modules host_call]. rewrite H. reflexivity.
Qed.

Lemma run_setup_no_setuptools_witness :
  host_modules bare_host "setuptools" = None /\
  run_setup bare_host readme_fs = (inl (RModuleNotFoundError "setuptools"), []).
Proof.
  split; [reflexivity|]. apply run_setup_no_setuptools. reflexivity.
Defined.


(** With setuptools installed but no README.md, [python setup.py] raises
    [FileNotFoundError: README.md] after its one attempt to open it, and
    [setup] is never called. *)
Theorem run_setup_no_readme : forall hs fs attrs,
  host_modules hs "setuptools" = Some attrs ->
  In "setup" attrs -> In "find_packages" attrs ->
  fs "README.md" = None ->
  run_setup hs fs = (inl (RFileNotFoundError "README.md"), [EvOpen "README.md"]).
Proof.
  intros hs fs attrs Hm Hs Hf Hr.
  pose proof (in_existsb_eqb _ _ Hs) as Es. pose proof (in_existsb_eqb _ _ Hf) as Ef.
  lazy -[host_modules host_call] in Es, Ef.
  unfold run_setup. lazy -[host_modules host_call]. rewrite Hm. lazy -[host_modules host_call]. rewrite Es. lazy -[host_modules host_call]. rewrite Ef. lazy -[host_modules host_call].
  rewrite Hr. reflexivity.
Qed.

Lemma run_setup_no_readme_witness :
  run_setup setuptools_host no_readme_fs =
    (inl (RFileNotFoundError "README.md"), [EvOpen "README.md"]).
Proof.
  apply (run_setup_no_readme setuptools_host no_readme_fs ["setup"; "find_packages"]);
    [reflexivity|simpl; tauto|simpl; tauto|reflexivity].
Defined.


(** With setuptools installed and README.md present, [python setup.py]
    succeeds after exactly three effects: it opens README.md, calls
    [find_packages(where="src")] and then calls [setup] once, passing the
    README's text as [long_description], the result of [find_packages]
    as [packages], and the [src] layout as [package_dir]. *)
Theorem run_setup_calls_setup_once : forall hs fs attrs c,
  host_modules hs "setuptools" = Some attrs ->
  In "setup" attrs -> In "find_packages" attrs ->
  fs "README.md" = Some c ->
  exists env kws,
    run_setup hs fs =
      (inr env, [EvOpen "README.md";
                 EvCall "setuptools.find_packages" [] [("where", VStr "src")];
                 EvCall "setuptools.setup" [] kws]) /\
    env_lookup "long_description" kws = Some (VStr c) /\
    env_lookup "packages" kws =
      Some (host_call hs "setuptools.find_packages" [] [("where", VStr "src")]) /\
    env_lookup "package_dir" kws = Some (VDict [(VStr EmptyString, VStr "src")]).
Proof.
  intros hs fs attrs c Hm Hs Hf Hr.
  pose proof (in_existsb_eqb _ _ Hs) as Es. pose proof (in_existsb_eqb _ _ Hf) as Ef.
  lazy -[host_modules host_call] in Es, Ef.
  unfold run_setup. lazy -[host_modules host_call]. rewrite Hm. lazy -[host_modules host_call].
  rewrite Es. lazy -[host_modules host_call]. rewrite Ef. lazy -[host_modules host_call].
  rewrite Hr. lazy -[host_modules host_call].
  eexists _, _. split; [reflexivity|].
  split; [|split]; reflexivity.
Qed.

Lemma run_setup_calls_setup_once_witness :
  exists env kws,
    run_setup setuptools_host readme_fs =
      (inr env, [EvOpen "README.md";
                 EvCall "setuptools.find_packages" [] [("where", VStr "src")];
                 EvCall "setuptools.setup" [] kws]) /\
    env_lookup "long_description" kws = Some (VStr "# Monte Carlo Option Pricing Lab").
Proof.
  destruct (run_setup_calls_setup_once setuptools_host readme_fs ["setup"; "find_packages"]
              "# Monte Carlo Option Pricing Lab")
    as [env [kws [E [L _]]]]; [reflexivity|simpl; tauto|simpl; tauto|reflexivity|].
  exists env, kws. split; assumption.
Defined.


(** The outcome and effects of [python setup.py] depend on the file
    system only through README.md. *)
Theorem run_setup_reads_only_readme : forall hs fs fs',
  fs "README.md" = fs' "README.md" -> run_setup hs fs = run_setup hs fs'.
Proof.
  intros hs fs fs' H. unfold run_setup. lazy -[host_modules host_call existsb].
  destruct (host_modules hs "setuptools") as [attrs|]; [|reflexivity].
  lazy -[host_modules host_call existsb].
  destruct (existsb _ attrs); [|reflexivity].
  lazy -[host_modules host_call existsb].
  destruct (existsb _ attrs); [|reflexivity].
  lazy -[host_modules host_call existsb].
  rewrite H. reflexivity.
Qed.

Lemma run_setup_reads_only_readme_witness :
  run_setup setuptools_host readme_fs =
  run_setup setuptools_host (fun p => if String.eqb p "LICENSE" then Some "MIT" else readme_fs p).
Proof. apply run_setup_reads_only_readme. reflexivity. Defined.


(** *** Every module of the package *)

Lemma append_assoc_str : forall a b c,
  String.append (String.append a b) c = String.append a (String.append b c).
Proof. intros a b c. induction a as [|ch a IH]; simpl; [reflexivity|rewrite IH; reflexivity]. Qed.

Lemma rsplit_aux_parent : forall s acc last p x,
  rsplit_aux s acc last = Some (p, x) ->
  Some (p, x) = last \/
  exists s1, p = String.append acc s1 /\ String.length s1 < String.length s.
Proof.
  intros s. induction s as [|ch s IH]; intros acc last p x H; simpl in H.
  - left. symmetry. exact H.
  - destruct (Ascii.eqb ch (Ascii.ascii_of_nat 46)).
    + destruct (IH _ _ _ _ H) as [E|[s1 [Ep Hl]]].
      * injection E as -> ->. right. exists EmptyString. split.
        -- clear. induction acc as [|ch' acc IHa]; simpl; [reflexivity|f_equal; exact IHa].
        -- simpl. lia.
      * right. exists (String ch s1). split.
        -- rewrite Ep, append_assoc_str. reflexivity.
        -- simpl. lia.
    + destruct (IH _ _ _ _ H) as [E|[s1 [Ep Hl]]].
      * left. exact E.
      * right. exists (String ch s1). split.
        -- rewrite Ep, append_assoc_str. reflexivity.
        -- simpl. lia.
Qed.

Lemma rsplit_aux_some : forall s acc l, exists v, rsplit_aux s acc (Some l) = Some v.
Proof.
  intros s. induction s as [|ch s IH]; intros acc l; simpl; [eexists; reflexivity|].
  destruct (Ascii.eqb ch (Ascii.ascii_of_nat 46)); apply IH.
Qed.

Lemma import_module_parent_fails : forall f q p x st e st1,
  in_sys_modules q st = false -> rsplit q = Some (p, x) ->
  import_module f p st = (PRaise e, st1) ->
  import_module (S f) q st = (PRaise e, st1).
Proof. intros f q p x st e st1 H1 H2 H3. simpl. rewrite H1, H2, H3. reflexivity. Qed.

Lemma import_under_src : forall n q f,
  String.length q <= n ->
  (q = "src" \/ exists r, q = String.append "src." r) ->
  import_module (n + 5 + f) q init_state = (PRaise (ImportError "european" "src.pricing"), init_state).
Proof.
  induction n as [|n IH]; intros q f Hl Hq.
  - destruct Hq as [->|[r ->]]; simpl in Hl; lia.
  - destruct Hq as [->|[r ->]].
    + replace (S n + 5 + f) with (5 + (S n + f)) by lia. apply import_src_from.
    + assert (Hr : rsplit (String.append "src." r) = rsplit_aux r "src." (Some ("src", r)))
        by reflexivity.
      destruct (rsplit_aux_some r "src." ("src", r)) as [[p x] Hv].
      replace (S n + 5 + f) with (S (n + 5 + f)) by lia.
      apply (import_module_parent_fails _ _ p x); [reflexivity|rewrite Hr; exact Hv|].
      simpl in Hl. apply IH.
      * destruct (rsplit_aux_parent _ _ _ _ _ Hv) as [E|[s1 [-> Hs1]]].
        -- injection E as -> ->. simpl. lia.
        -- simpl. lia.
      * destruct (rsplit_aux_parent _ _ _ _ _ Hv) as [E|[s1 [-> Hs1]]].
        -- injection E as -> ->. left. reflexivity.
        -- right. exists s1. reflexivity.
Qed.

(** Every module of the package, existing or not ([src.models], whose
    own file is sound, or a nested name such as [src.pricing.european]),
    fails to import with the same [ImportError: cannot import name
    'european' from 'src.pricing'], since [src] is initialised first;
    each failure leaves the interpreter state unchanged. *)
Theorem import_any_src_module_fails : forall q f,
  (q = "src" \/ exists r, q = String.append "src." r) ->
  import_module (String.length q + 5 + f) q init_state =
    (PRaise (ImportError "european" "src.pricing"), init_state).
Proof. intros q f Hq. apply import_under_src; [lia|exact Hq]. Qed.

Lemma import_any_src_module_fails_witness :
  import_module (String.length "src.models" + 5 + 0) "src.models" init_state =
    (PRaise (ImportError "european" "src.pricing"), init_state).
Proof. apply import_any_src_module_fails. right. exists "models". reflexivity. Defined.

(** *** The packages' exports *)

Section Exports.
Variable imp : string -> ImpState -> PyResult * ImpState.

(** Every module imports without error, registering itself and keeping
    the attributes already bound. *)
Hypothesis imp_ok : forall q st, exists st',
  imp q st = (POk, st') /\ in_sys_modules q st' = true /\ keeps st st'.

Lemma hasattr_bind : forall q x st, hasattr q x (bind_name q x st) = true.
Proof. intros. unfold hasattr, bind_name. simpl. rewrite !String.eqb_refl. reflexivity. Qed.

Lemma keeps_bind : forall q x st, keeps st (bind_name q x st).
Proof.
  intros q x st m y H. unfold hasattr, bind_name in *. simpl. rewrite H. apply orb_true_r.
Qed.

Lemma keeps_trans : forall a b c, keeps a b -> keeps b c -> keeps a c.
Proof. unfold keeps. auto. Qed.

Lemma keeps_refl : forall a, keeps a a.
Proof. unfold keeps. auto. Qed.

Lemma import_from_rel_ok : forall q pkg x st, exists st',
  import_from_rel imp q pkg x st = (POk, st') /\ hasattr q x st' = true /\ keeps st st'.
Proof.
  intros q pkg x st. unfold import_from_rel.
  destruct (hasattr pkg x st).
  - exists (bind_name q x st). split; [reflexivity|split; [apply hasattr_bind|apply keeps_bind]].
  - destruct (imp_ok (dotted pkg x) st) as [st' [E [Hin Hk]]]. rewrite E.
    rewrite Hin, orb_true_r.
    exists (bind_name q x st'). split; [reflexivity|split; [apply hasattr_bind|]].
    eapply keeps_trans; [exact Hk|apply keeps_bind].
Qed.

Lemma exec_import_cons : forall q pkg l m x ns st,
  exec_stmt imp q pkg (SImportFrom (S l) m (x :: ns)) st =
  match import_from_rel imp q pkg x st with
  | (POk, st') => exec_stmt imp q pkg (SImportFrom (S l) m ns) st'
  | r => r
  end.
Proof. reflexivity. Qed.

Lemma exec_rel_import_ok : forall q pkg l m ns st, exists st',
  exec_stmt imp q pkg (SImportFrom (S l) m ns) st = (POk, st') /\
  (forall x, In x ns -> hasattr q x st' = true) /\ keeps st st'.
Proof.
  intros q pkg l m ns. induction ns as [|x ns IH]; intros st.
  - exists st. split; [reflexivity|split; [intros x []|apply keeps_refl]].
  - rewrite exec_import_cons.
    destruct (import_from_rel_ok q pkg x st) as [st1 [E1 [H1 K1]]]. rewrite E1.
    destruct (IH st1) as [st2 [E2 [H2 K2]]]. exists st2. split; [exact E2|split].
    + intros y [<-|Hy]; [apply K2, H1|apply H2, Hy].
    + eapply keeps_trans; eassumption.
Qed.

Lemma exec_body_ok : forall q ss st, forallb runs_ok ss = true -> exists st',
  exec_body imp q q ss st = (POk, st') /\
  (forall x, In x (flat_map stmt_binds ss) -> hasattr q x st' = true) /\ keeps st st'.
Proof.
  intros q ss. induction ss as [|s0 ss IH]; intros st Hok.
  - exists st. split; [reflexivity|split; [intros x []|apply keeps_refl]].
  - simpl in Hok. apply andb_prop in Hok. destruct Hok as [H0 Hss].
    assert (Hs : exists st1, exec_stmt imp q q s0 st = (POk, st1) /\
                   (forall x, In x (stmt_binds s0) -> hasattr q x st1 = true) /\ keeps st st1).
    { destruct s0 as [e|x e|[|l] m ns|ctx x body|n body|n body]; try discriminate.
      - exists st. split; [reflexivity|split; [intros y []|apply keeps_refl]].
      - exists (bind_name q x st). split; [reflexivity|split].
        + intros y [<-|[]]. apply hasattr_bind.
        + apply keeps_bind.
      - apply exec_rel_import_ok. }
    destruct Hs as [st1 [E1 [H1 K1]]].
    destruct (IH st1 Hss) as [st2 [E2 [H2 K2]]].
    exists st2. simpl. rewrite E1. split; [exact E2|split].
    + intros x Hx. apply in_app_or in Hx. destruct Hx as [Hx|Hx]; [apply K2, H1, Hx|apply H2, Hx].
    + eapply keeps_trans; eassumption.
Qed.

End Exports.

Lemma ok_import_ok : forall q st, exists st',
  ok_import q st = (POk, st') /\ in_sys_modules q st' = true /\ keeps st st'.
Proof.
  intros q st. exists (add_module q st). split; [reflexivity|split].
  - unfold in_sys_modules, add_module. simpl. rewrite String.eqb_refl. reflexivity.
  - intros m y H. exact H.
Qed.

(** Once every submodule it imports can be imported, each package's
    [__init__] runs to completion and binds every name its [__all__]
    lists, so [from <package> import *] exports only bound names. *)
Theorem packages_export_bound_names : forall imp st m,
  (forall q st0, exists st', imp q st0 = (POk, st') /\ in_sys_modules q st' = true /\ keeps st0 st') ->
  In m src_packages ->
  exists st', exec_body imp (mod_name m) (mod_name m) (mod_body m) st = (POk, st') /\
    forall x, In x (all_names m) -> hasattr (mod_name m) x st' = true.
Proof.
  intros imp st m Himp Hm.
  assert (Hsub : forall x, In x (all_names m) -> In x (flat_map stmt_binds (mod_body m))).
  { simpl in Hm. destruct Hm as [<-|[<-|[<-|[]]]]; intros x Hx; simpl in Hx |- *; tauto. }
  assert (Hok : forallb runs_ok (mod_body m) = true).
  { simpl in Hm. destruct Hm as [<-|[<-|[<-|[]]]]; reflexivity. }
  destruct (exec_body_ok imp Himp (mod_name m) (mod_body m) st Hok) as [st' [E [H _]]].
  exists st'. split; [exact E|]. intros x Hx. apply H, Hsub, Hx.
Qed.

Lemma packages_export_bound_names_witness :
  In pricing_init src_packages /\
  exists st', exec_body ok_import "src.pricing" "src.pricing" (mod_body pricing_init) init_state
                = (POk, st') /\
    forall x, In x (all_names pricing_init) -> hasattr "src.pricing" x st' = true.
Proof.
  assert (Hin : In pricing_init src_packages) by (simpl; tauto).
  split; [exact Hin|].
  exact (packages_export_bound_names ok_import init_state pricing_init ok_import_ok Hin).
Defined.

End PySrcFacts.

(* ================================================================== *)
(** ** Part IV: theorems about the simulation and estimation core *)

Module MCFacts.
Import MC.
Local Open Scope R_scope.

(** *** Lists *)

Lemma nth_map_combine : forall (f : R * R -> R) (g : Path -> R)
    (ps : PathSet) (cf : list R) i,
  length cf = length ps -> (i < length ps)%nat ->
  nth i (map f (combine (map g ps) cf)) 0 = f (g (nth i ps []), nth i cf 0).
Proof.
  intros f g ps cf i Hl Hi.
  rewrite nth_indep with (d' := f (g [], 0))
    by (rewrite length_map, length_combine, length_map; lia).
  rewrite map_nth, combine_nth by (rewrite length_map; auto).
  rewrite map_nth. reflexivity.
Qed.

Lemma length_lsm_step : forall nm h disc ps t cf,
  length cf = length ps -> length (lsm_step nm h disc ps t cf) = length ps.
Proof.
  intros. unfold lsm_step. rewrite length_map, length_combine, length_map. lia.
Qed.

Lemma length_backward : forall nm h disc ps t cf,
  length cf = length ps -> length (backward nm h disc ps t cf) = length ps.
Proof.
  intros nm h disc ps t; induction t as [|t IH]; intros cf Hl; simpl.
  - exact Hl.
  - apply IH, length_lsm_step, Hl.
Qed.

(** *** One backward step *)

Lemma lsm_step_nth : forall nm h disc ps t cf i,
  length cf = length ps -> (i < length ps)%nat ->
  nth i (lsm_step nm h disc ps t cf) 0 =
    let x := state_at (nth i ps []) t in
    let cont := continuation nm (regression_data h disc ps t cf) in
    if itm h x
    then if Rlt_dec (cont x) (h x) then h x else disc * nth i cf 0
    else disc * nth i cf 0.
Proof.
  intros. unfold lsm_step. rewrite nth_map_combine by assumption. reflexivity.
Qed.

Lemma itm_true : forall h x, itm h x = true <-> 0 < h x.
Proof.
  intros h x. unfold itm. destruct (Rlt_dec 0 (h x)); split; intros; auto; try discriminate; lra.
Qed.

Lemma in_combine_nth : forall (xs ys : list R) x y,
  length xs = length ys ->
  In (x, y) (combine xs ys) <->
  exists i, (i < length xs)%nat /\ x = nth i xs 0 /\ y = nth i ys 0.
Proof.
  intros xs ys x y Hl. split.
  - intros Hin. apply (In_nth _ _ (0, 0)) in Hin as [i [Hi Hn]].
    rewrite length_combine in Hi. rewrite combine_nth in Hn by exact Hl.
    inversion Hn; subst. exists i. split; [lia | split; reflexivity].
  - intros [i [Hi [-> ->]]]. rewrite <- combine_nth by exact Hl.
    apply nth_In. rewrite length_combine. lia.
Qed.

(** The regression data are the in-the-money paths' states, each with
    that path's cash flow discounted one step. *)
Lemma regression_data_spec : forall h disc ps t cf x y,
  length cf = length ps ->
  In (x, y) (regression_data h disc ps t cf) <->
  exists i, (i < length ps)%nat /\ x = state_at (nth i ps []) t /\
            0 < h x /\ y = disc * nth i cf 0.
Proof.
  intros h disc ps t cf x y Hl. unfold regression_data. rewrite in_map_iff. split.
  - intros [[x' c] [Heq Hin]]. inversion Heq; subst x y.
    apply filter_In in Hin as [Hin Hitm].
    apply in_combine_nth in Hin as [i [Hi [Hx Hc]]]; [|rewrite length_map; auto].
    rewrite length_map in Hi.
    exists i. split; [exact Hi|].
    rewrite nth_indep with (d' := state_at [] t) in Hx by (rewrite length_map; exact Hi).
    rewrite (map_nth (fun p => state_at p t)) in Hx. apply itm_true in Hitm.
    subst. repeat split; auto.
  - intros [i [Hi [Hx [Hh Hy]]]]. exists (x, nth i cf 0). split.
    + subst y. reflexivity.
    + apply filter_In. split.
      * apply in_combine_nth; [rewrite length_map; auto|].
        exists i. rewrite length_map. split; [exact Hi|split; [|reflexivity]].
        rewrite nth_indep with (d' := state_at [] t) by (rewrite length_map; exact Hi).
        rewrite (map_nth (fun p => state_at p t)). exact Hx.
      * apply itm_true. exact Hh.
Qed.

(** *** Exercise times *)

Lemma first_true_ge : forall f n t, (t <= first_true f t n)%nat.
Proof.
  intros f n. induction n as [|n IH]; intros t; simpl; [lia|].
  destruct (f t); [lia|]. specialize (IH (S t)). lia.
Qed.

Lemma first_true_le : forall f n t, (first_true f t n <= t + n)%nat.
Proof.
  intros f n. induction n as [|n IH]; intros t; simpl; [lia|].
  destruct (f t); [lia|]. specialize (IH (S t)). lia.
Qed.

Lemma first_true_before : forall f n t s,
  (t <= s < first_true f t n)%nat -> f s = false.
Proof.
  intros f n. induction n as [|n IH]; intros t s Hs; simpl in Hs; [lia|].
  destruct (f t) eqn:Et; [lia|].
  destruct (Nat.eq_dec s t) as [->|Hne]; [exact Et|].
  apply (IH (S t)). lia.
Qed.

Lemma first_true_hit : forall f n t,
  (first_true f t n < t + n)%nat -> f (first_true f t n) = true.
Proof.
  intros f n. induction n as [|n IH]; intros t Hlt; simpl in *; [lia|].
  destruct (f t) eqn:Et; [exact Et|]. apply IH. lia.
Qed.

Lemma length_cf_down : forall nm h disc N ps k,
  length (cf_down nm h disc N ps k) = length ps.
Proof.
  intros nm h disc N ps k. induction k as [|k IH]; simpl.
  - unfold terminal_cashflows. apply length_map.
  - apply length_lsm_step, IH.
Qed.

Lemma backward_cf_down : forall nm h disc N ps k, (k <= N - 1)%nat ->
  backward nm h disc ps (N - 1 - k) (cf_down nm h disc N ps k) = lsm_cashflows nm h disc N ps.
Proof.
  intros nm h disc N ps k. induction k as [|k IH]; intros Hk.
  - rewrite Nat.sub_0_r. reflexivity.
  - rewrite <- IH by lia.
    replace (N - 1 - k)%nat with (S (N - 1 - S k)) by lia. reflexivity.
Qed.

Lemma lsm_cashflows_at_first_step : forall nm h disc N ps,
  lsm_cashflows nm h disc N ps = cashflows_at nm h disc N ps 0.
Proof.
  intros. rewrite <- (backward_cf_down nm h disc N ps (N - 1)) by lia.
  unfold cashflows_at. rewrite Nat.sub_diag, Nat.sub_0_r. reflexivity.
Qed.

(** The cash flow of path [i] at step [t = N - 1 - k] is its payoff at
    the first step from [t] on whose exercise test passes (or at the
    last step), discounted back to step [t]. *)
Lemma cf_down_exercise : forall nm h disc N ps i (f : nat -> bool),
  (forall t, f t = exercises nm h disc ps t (cashflows_at nm h disc N ps (S t)) (nth i ps [])) ->
  (i < length ps)%nat ->
  forall k, (k <= N - 1)%nat ->
  nth i (cf_down nm h disc N ps k) 0 =
    disc ^ (first_true f (N - 1 - k) k - (N - 1 - k)) *
    h (state_at (nth i ps []) (first_true f (N - 1 - k) k)).
Proof.
  intros nm h disc N ps i f Hf Hi k. induction k as [|k IH]; intros Hk.
  - simpl. rewrite Nat.sub_0_r, Nat.sub_diag, pow_O, Rmult_1_l.
    unfold terminal_cashflows.
    rewrite (nth_indep _ 0 (h (state_at [] (N - 1)))) by (rewrite length_map; exact Hi).
    rewrite (map_nth (fun p => h (state_at p (N - 1)))). reflexivity.
  - cbn [cf_down]. set (t := (N - 1 - S k)%nat).
    rewrite lsm_step_nth by (rewrite ?length_cf_down; auto). cbv zeta.
    assert (Ht : (N - 1 - k)%nat = S t) by (unfold t; lia).
    assert (Hc : cashflows_at nm h disc N ps (S t) = cf_down nm h disc N ps k)
      by (unfold cashflows_at; f_equal; lia).
    cbn [first_true]. rewrite Hf. unfold exercises. rewrite Hc. cbv zeta.
    assert (Hrec : disc * nth i (cf_down nm h disc N ps k) 0 =
       disc ^ (first_true f (S t) k - t) * h (state_at (nth i ps []) (first_true f (S t) k))).
    { rewrite IH by lia. rewrite Ht.
      pose proof (first_true_ge f k (S t)) as Hge.
      replace (first_true f (S t) k - t)%nat with (S (first_true f (S t) k - S t)) by lia.
      cbn [pow]. ring. }
    destruct (itm h (state_at (nth i ps []) t)); cbn [andb]; [|exact Hrec].
    destruct (Rlt_dec _ _); [|exact Hrec].
    rewrite Nat.sub_diag, pow_O, Rmult_1_l. reflexivity.
Qed.
(** C5: the exercise boundary estimator performs the backward induction
    of section 4.3.  The cash flows start as every path's terminal
    payoff and are stepped back from step [N-2] to step [0]; the
    regression data of a step are exactly the in-the-money paths, each
    with its future cash flow discounted one step; an in-the-money path
    whose exercise payoff exceeds the fitted continuation value takes
    the undiscounted exercise payoff (its later cash flows no longer
    count), any other in-the-money path and every out-of-the-money
    path carries its existing cash flow discounted one step. *)
Theorem C5_backward_induction : forall nm h disc (ps : PathSet) N,
  lsm_cashflows nm h disc N ps =
    backward nm h disc ps (N - 1) (terminal_cashflows h N ps) /\
  (forall i, (i < length ps)%nat ->
     nth i (terminal_cashflows h N ps) 0 = h (state_at (nth i ps []) (N - 1))) /\
  (forall t cf, backward nm h disc ps (S t) cf =
                backward nm h disc ps t (lsm_step nm h disc ps t cf)) /\
  (forall t cf x y, length cf = length ps ->
     In (x, y) (regression_data h disc ps t cf) <->
     exists i, (i < length ps)%nat /\ x = state_at (nth i ps []) t /\
               0 < h x /\ y = disc * nth i cf 0) /\
  (forall t cf i, length cf = length ps -> (i < length ps)%nat ->
     let x := state_at (nth i ps []) t in
     let cont := continuation nm (regression_data h disc ps t cf) x in
     let next := nth i (lsm_step nm h disc ps t cf) 0 in
     (0 < h x -> cont < h x -> next = h x) /\
     (0 < h x -> h x <= cont -> next = disc * nth i cf 0) /\
     (h x <= 0 -> next = disc * nth i cf 0)).
Proof.
  intros nm h disc ps N. split; [reflexivity|]. split; [|split; [|split]].
  - intros i Hi. unfold terminal_cashflows.
    rewrite nth_indep with (d' := h (state_at [] (N - 1))) by (rewrite length_map; exact Hi).
    rewrite (map_nth (fun p => h (state_at p (N - 1)))). reflexivity.
  - intros t cf. reflexivity.
  - intros t cf x y Hl. apply regression_data_spec. exact Hl.
  - intros t cf i Hl Hi. cbv zeta. rewrite lsm_step_nth by assumption. cbv zeta.
    unfold itm.
    split; [|split]; intros Hh.
    + intros Hc. destruct (Rlt_dec 0 _); [|lra]. destruct (Rlt_dec _ _); [reflexivity|lra].
    + intros Hc. destruct (Rlt_dec 0 _); [|lra]. destruct (Rlt_dec _ _); [lra|reflexivity].
    + destruct (Rlt_dec 0 _); [lra|reflexivity].
Qed.

(** C6: at a step with fewer in-the-money paths than basis terms the
    regression is skipped: the step does not depend on the least-squares
    solver at all, its continuation value is zero and every in-the-money
    path is exercised.  A solver reporting [SingularRegression] likewise
    yields a zero continuation value, and the estimator always returns
    one cash flow per path: no error reaches the caller. *)
Theorem C6_fallback_zero_continuation : forall nm nm' h disc ps t cf,
  length cf = length ps ->
  (length (regression_data h disc ps t cf) < basis_size)%nat ->
  lsm_step nm h disc ps t cf = lsm_step nm' h disc ps t cf /\
  (forall x, continuation nm (regression_data h disc ps t cf) x = 0) /\
  (forall i, (i < length ps)%nat ->
     nth i (lsm_step nm h disc ps t cf) 0 =
       let x := state_at (nth i ps []) t in
       if itm h x then h x else disc * nth i cf 0) /\
  (forall data x,
     lstsq nm (map (fun '(x, _) => basis x) data) (map snd data) = None ->
     continuation nm data x = 0) /\
  (forall N, length (lsm_cashflows nm h disc N ps) = length ps).
Proof.
  intros nm nm' h disc ps t cf Hl Hlt.
  assert (Hz : forall nm0 x, continuation nm0 (regression_data h disc ps t cf) x = 0).
  { intros nm0 x. unfold continuation.
    destruct (Nat.ltb_spec (length (regression_data h disc ps t cf)) basis_size);
      [reflexivity|lia]. }
  split; [|split; [|split; [|split]]].
  - unfold lsm_step. apply map_ext. intros [x c].
    rewrite (Hz nm x), (Hz nm' x). reflexivity.
  - apply Hz.
  - intros i Hi. rewrite lsm_step_nth by assumption. cbv zeta. rewrite Hz.
    unfold itm. destruct (Rlt_dec 0 _); reflexivity.
  - intros data x Hnone. unfold continuation.
    destruct (Nat.ltb (length data) basis_size); [reflexivity|].
    rewrite Hnone. reflexivity.
  - intros N. unfold lsm_cashflows. apply length_backward.
    unfold terminal_cashflows. apply length_map.
Qed.

Lemma C6_fallback_zero_continuation_witness :
  length [50%R] = length cex_paths /\
  (length (regression_data (exercise_value Put 100%R) 1%R cex_paths 0 [50%R]) < basis_size)%nat /\
  lsm_step singular_numerics (exercise_value Put 100%R) 1%R cex_paths 0 [50%R] =
  lsm_step failing_cholesky (exercise_value Put 100%R) 1%R cex_paths 0 [50%R].
Proof.
  assert (H1 : length [50%R] = length cex_paths) by reflexivity.
  assert (H2 : (length (regression_data (exercise_value Put 100%R) 1%R cex_paths 0 [50%R])
                < basis_size)%nat).
  { unfold regression_data. rewrite length_map. simpl.
    destruct (itm (exercise_value Put 100%R) (state_at [[90]; [50%R]] 0)); simpl;
      unfold basis_size; lia. }
  split; [exact H1|split; [exact H2|]].
  exact (proj1 (C6_fallback_zero_continuation singular_numerics failing_cholesky
                  (exercise_value Put 100%R) 1%R cex_paths 0 [50%R] H1 H2)).
Defined.

(** *** Parameter validation *)

Lemma validate_invalid : forall nm m c,
  ((num_paths c <= 0)%Z \/ (num_steps c <= 0)%Z \/ dt c <= 0 \/
   (exists corr assets, m = MultiAsset corr assets /\ cholesky nm corr = None)) ->
  validate nm m c = None.
Proof.
  intros nm m c H. unfold validate.
  destruct (Z.leb_spec (num_paths c) 0) as [H1|H1]; [reflexivity|].
  destruct (Z.leb_spec (num_steps c) 0) as [H2|H2]; [reflexivity|].
  destruct (Rle_dec (dt c) 0) as [H3|H3]; [reflexivity|].
  destruct H as [H|[H|[H|[corr [assets [-> Hc]]]]]]; try lia; try lra.
  destruct (forallb vol_ok assets); [rewrite Hc|]; reflexivity.
Qed.

(** C4: with [num_paths <= 0], [num_steps <= 0], [dt <= 0] or a
    correlation matrix that cannot be factored, path generation fails
    with [InvalidModelParameters] before simulating anything (the work
    log of simulated cells is empty), and pricing fails the same way. *)
Theorem C4_invalid_parameters_fail_fast : forall rs nm m c spec,
  ((num_paths c <= 0)%Z \/ (num_steps c <= 0)%Z \/ dt c <= 0 \/
   (exists corr assets, m = MultiAsset corr assets /\ cholesky nm corr = None)) ->
  generate_traced rs nm m c = (Err InvalidModelParameters, []) /\
  price rs nm m c spec = Err InvalidModelParameters.
Proof.
  intros rs nm m c spec H. apply validate_invalid in H.
  unfold price, generate, generate_traced. rewrite H. split; reflexivity.
Qed.

Lemma C4_invalid_parameters_fail_fast_witness :
  (num_paths {| num_paths := 0; num_steps := 10; horizon := 1; seed := 7;
                plan := plain_plan; confidence_level := 0.95 |} <= 0)%Z /\
  generate_traced zero_source failing_cholesky
    (MultiAsset [[1; 0.5]; [0.5; 1]]
       [GeometricBrownianMotion 100 0.05 0.2; GeometricBrownianMotion 50 0.05 0.3])
    {| num_paths := 0; num_steps := 10; horizon := 1; seed := 7;
       plan := plain_plan; confidence_level := 0.95 |} =
    (Err InvalidModelParameters, []) /\
  price zero_source failing_cholesky
    (MultiAsset [[1; 0.5]; [0.5; 1]]
       [GeometricBrownianMotion 100 0.05 0.2; GeometricBrownianMotion 50 0.05 0.3])
    {| num_paths := 0; num_steps := 10; horizon := 1; seed := 7;
       plan := plain_plan; confidence_level := 0.95 |} (European 100 Call) =
    Err InvalidModelParameters.
Proof.
  split; [simpl; lia|].
  apply C4_invalid_parameters_fail_fast. left. simpl. lia.
Defined.

(** *** Pooling batches *)

Lemma sqrt_div_sq : forall a b, 0 <= a -> 0 < b -> (sqrt a / sqrt b) ^ 2 = a / b.
Proof.
  intros a b Ha Hb.
  assert (Hs : sqrt b <> 0) by (apply Rgt_not_eq, sqrt_lt_R0, Hb).
  replace ((sqrt a / sqrt b) ^ 2) with (sqrt a ^ 2 / sqrt b ^ 2) by (field; exact Hs).
  rewrite !pow2_sqrt by lra. reflexivity.
Qed.

Lemma INR_ge2 : forall n, (2 <= n)%nat -> 2 <= INR n.
Proof. intros n Hn. apply (le_INR 2) in Hn. simpl in Hn. lra. Qed.

Lemma m2_of_nonneg : forall r, 0 <= m2_of r.
Proof.
  intros r. unfold m2_of. destruct (effective_paths r) as [|k].
  - rewrite INR_0. nra.
  - rewrite S_INR. pose proof (pos_INR k).
    apply Rmult_le_pos; [apply Rmult_le_pos; [nra|lra]|lra].
Qed.

Lemma result_stats_ok : forall r,
  stats_ok (effective_paths r) (pooled_sum r) (pooled_sumsq r).
Proof.
  intros r. unfold stats_ok, pooled_sum, pooled_sumsq.
  pose proof (m2_of_nonneg r) as Hm. unfold m2_of in *.
  split; [|split]; intros Hn.
  - rewrite Hn, INR_0. split; ring.
  - rewrite Hn, INR_1. ring.
  - pose proof (INR_ge2 _ Hn).
    replace (std_error r ^ 2 * INR (effective_paths r) * (INR (effective_paths r) - 1) +
             INR (effective_paths r) * estimate r ^ 2 -
             (INR (effective_paths r) * estimate r) ^ 2 / INR (effective_paths r))
      with (std_error r ^ 2 * INR (effective_paths r) * (INR (effective_paths r) - 1))
      by (field; lra).
    exact Hm.
Qed.

Lemma stats_ok_add : forall n1 s1 q1 n2 s2 q2,
  stats_ok n1 s1 q1 -> stats_ok n2 s2 q2 ->
  stats_ok (n1 + n2) (s1 + s2) (q1 + q2).
Proof.
  intros n1 s1 q1 n2 s2 q2 [A0 [A1 A2]] [B0 [B1 B2]].
  (* every batch has q >= s^2 / n when n > 0 *)
  assert (Lb : forall n s q, stats_ok n s q -> (1 <= n)%nat -> s ^ 2 / INR n <= q).
  { intros n s q [C0 [C1 C2]] Hn.
    destruct (Nat.eq_dec n 1) as [->|Hne].
    - rewrite (C1 eq_refl), INR_1. lra.
    - specialize (C2 ltac:(lia)). lra. }
  destruct (Nat.eq_dec n1 0) as [->|H1].
  - destruct (A0 eq_refl) as [-> ->]. rewrite Nat.add_0_l, !Rplus_0_l.
    split; [|split]; assumption.
  - destruct (Nat.eq_dec n2 0) as [->|H2].
    + destruct (B0 eq_refl) as [-> ->]. rewrite Nat.add_0_r, !Rplus_0_r.
      split; [|split]; assumption.
    + split; [|split]; intros Hn; try lia.
      pose proof (Lb _ _ _ (conj A0 (conj A1 A2)) ltac:(lia)) as L1.
      pose proof (Lb _ _ _ (conj B0 (conj B1 B2)) ltac:(lia)) as L2.
      assert (P1 : 0 < INR n1) by (apply lt_0_INR; lia).
      assert (P2 : 0 < INR n2) by (apply lt_0_INR; lia).
      rewrite plus_INR.
      assert (Key : (s1 + s2) ^ 2 / (INR n1 + INR n2) <= s1 ^ 2 / INR n1 + s2 ^ 2 / INR n2).
      { assert (E : s1 ^ 2 / INR n1 + s2 ^ 2 / INR n2 - (s1 + s2) ^ 2 / (INR n1 + INR n2)
                    = (INR n2 * s1 - INR n1 * s2) ^ 2 / (INR n1 * INR n2 * (INR n1 + INR n2)))
          by (field; lra).
        assert (0 <= (INR n2 * s1 - INR n1 * s2) ^ 2 / (INR n1 * INR n2 * (INR n1 + INR n2))).
        { apply Rmult_le_pos; [apply pow2_ge_0|]. left. apply Rinv_0_lt_compat.
          apply Rmult_lt_0_compat; [nra|lra]. }
        lra. }
      lra.
Qed.

Lemma build_stats : forall z n s q, stats_ok n s q ->
  effective_paths (build z n s q) = n /\
  pooled_sum (build z n s q) = s /\
  pooled_sumsq (build z n s q) = q.
Proof.
  intros z n s q [H0 [H1 H2]]. unfold build, pooled_sum, pooled_sumsq, m2_of, mk_result; cbn [estimate std_error effective_paths].
  split; [reflexivity|].
  destruct (Nat.eq_dec n 0) as [->|Hn0].
  - destruct (H0 eq_refl) as [-> ->]. rewrite INR_0. split; ring.
  - destruct (Nat.eq_dec n 1) as [->|Hn1].
    + rewrite (H1 eq_refl), INR_1. split; [field|]. replace (1 - 1) with 0 by ring. rewrite Rmult_0_r, Rplus_0_l. field.
    + assert (Hn : (2 <= n)%nat) by lia. specialize (H2 Hn).
      pose proof (INR_ge2 _ Hn).
      split; [field; lra|].
      rewrite sqrt_div_sq; [field; lra| |lra].
      apply Rmult_le_pos; [exact H2|]. left. apply Rinv_0_lt_compat. lra.
Qed.

(** Merging two batches pools their sufficient statistics. *)
Lemma merge2_build : forall z a b,
  merge2 z a b = build z (effective_paths a + effective_paths b)
                   (pooled_sum a + pooled_sum b) (pooled_sumsq a + pooled_sumsq b).
Proof.
  intros z a b. unfold merge2, build, pooled_sum, pooled_sumsq. rewrite plus_INR.
  set (na := INR (effective_paths a)). set (nb := INR (effective_paths b)).
  set (ea := estimate a). set (eb := estimate b).
  replace (m2_of a + m2_of b + (eb - ea) ^ 2 * na * nb / (na + nb))
    with (m2_of a + na * ea ^ 2 + (m2_of b + nb * eb ^ 2) - (na * ea + nb * eb) ^ 2 / (na + nb));
    [reflexivity|].
  destruct (Nat.eq_dec (effective_paths a + effective_paths b) 0) as [H0|H0].
  - assert (Ea : effective_paths a = 0%nat) by lia.
    assert (Eb : effective_paths b = 0%nat) by lia.
    unfold m2_of. subst na nb. rewrite Ea, Eb, INR_0. unfold Rdiv. ring.
  - assert (Hn : na + nb <> 0).
    { subst na nb. rewrite <- plus_INR. apply not_0_INR. exact H0. }
    field. exact Hn.
Qed.

Lemma pooled_merge2 : forall z a b,
  effective_paths (merge2 z a b) = (effective_paths a + effective_paths b)%nat /\
  pooled_sum (merge2 z a b) = pooled_sum a + pooled_sum b /\
  pooled_sumsq (merge2 z a b) = pooled_sumsq a + pooled_sumsq b.
Proof.
  intros z a b. rewrite merge2_build. apply build_stats, stats_ok_add; apply result_stats_ok.
Qed.

Lemma merge2_comm : forall z a b, merge2 z a b = merge2 z b a.
Proof.
  intros z a b. rewrite !merge2_build.
  rewrite (Nat.add_comm (effective_paths a)), (Rplus_comm (pooled_sum a)),
          (Rplus_comm (pooled_sumsq a)).
  reflexivity.
Qed.

Lemma merge2_assoc : forall z a b c,
  merge2 z (merge2 z a b) c = merge2 z a (merge2 z b c).
Proof.
  intros z a b c. rewrite (merge2_build z (merge2 z a b) c), (merge2_build z a (merge2 z b c)).
  destruct (pooled_merge2 z a b) as [N1 [S1 Q1]].
  destruct (pooled_merge2 z b c) as [N2 [S2 Q2]].
  rewrite N1, S1, Q1, N2, S2, Q2.
  rewrite Nat.add_assoc, !Rplus_assoc. reflexivity.
Qed.

Lemma fold_merge_perm_tail : forall z l l', Permutation l l' ->
  forall x, fold_left (merge2 z) l x = fold_left (merge2 z) l' x.
Proof.
  intros z l l' H. induction H as [|y l l' H IH|y y' l|l l' l'' H1 IH1 H2 IH2];
    intros x; simpl.
  - reflexivity.
  - apply IH.
  - rewrite !merge2_assoc, (merge2_comm z y' y). reflexivity.
  - rewrite IH1. apply IH2.
Qed.

Lemma merge_perm : forall z l l', Permutation l l' -> merge z l = merge z l'.
Proof.
  intros z l l' H. induction H as [|x l l' H IH|y x l|l l' l'' H1 IH1 H2 IH2].
  - reflexivity.
  - simpl. f_equal. apply fold_merge_perm_tail. exact H.
  - simpl. rewrite (merge2_comm z x y). reflexivity.
  - rewrite IH1. exact IH2.
Qed.

(** C8: merging batch results is commutative and associative (in exact
    arithmetic): every order and grouping of the batches yields the
    same pooled result, whose estimate is the path-count-weighted mean
    and whose statistics are the pooled count, sum and sum of squares. *)
Theorem C8_merge_order_independent : forall z,
  (forall a b, merge2 z a b = merge2 z b a) /\
  (forall a b c, merge2 z (merge2 z a b) c = merge2 z a (merge2 z b c)) /\
  (forall l l', Permutation l l' -> merge z l = merge z l') /\
  (forall a b, estimate (merge2 z a b) =
     (INR (effective_paths a) * estimate a + INR (effective_paths b) * estimate b) /
     (INR (effective_paths a) + INR (effective_paths b)) /\
     effective_paths (merge2 z a b) = (effective_paths a + effective_paths b)%nat /\
     pooled_sumsq (merge2 z a b) = pooled_sumsq a + pooled_sumsq b).
Proof.
  intros z. split; [|split; [|split]].
  - apply merge2_comm.
  - apply merge2_assoc.
  - apply merge_perm.
  - intros a b. destruct (pooled_merge2 z a b) as [N [_ Q]].
    split; [reflexivity|split; assumption].
Qed.

(** *** Determinism and worker invariance *)

Lemma map_nth_seq_self : forall (A : Type) (l : list A) d,
  map (fun j => nth j l d) (seq 0 (length l)) = l.
Proof.
  intros A l d. induction l as [|x l IH]; [reflexivity|].
  simpl. f_equal. rewrite <- seq_shift, map_map. exact IH.
Qed.

Lemma length_path_of : forall rs c assets l i,
  length (path_of rs c assets l i) = steps c.
Proof.
  intros. unfold path_of, path_from. rewrite length_map, length_seq. reflexivity.
Qed.

(** The generated path set: path [i] is [path_of i] for [i < paths c]. *)
Lemma generate_eq : forall rs nm m c,
  generate rs nm m c =
  match validate nm m c with
  | None => Err InvalidModelParameters
  | Some (assets, l) => Ok (map (path_of rs c assets l) (seq 0 (paths c)))
  end.
Proof.
  intros rs nm m c. unfold generate, generate_traced.
  destruct (validate nm m c) as [[assets l]|]; [|reflexivity].
  simpl. f_equal. rewrite map_map. apply map_ext. intros i.
  rewrite map_map. simpl.
  rewrite <- (length_path_of rs c assets l i). apply map_nth_seq_self.
Qed.

Section SeededStreams.
Variables (rs rs' : RandomSource) (c : SimulationConfig).
Hypothesis Hnormal : normal rs (seed c) = normal rs' (seed c).
Hypothesis Huniform : uniform rs (seed c) = uniform rs' (seed c).
Hypothesis Hinv : inv_norm_cdf rs = inv_norm_cdf rs'.
Hypothesis Hjump : forall x y w n,
  jump_logreturn rs x y w (seed c) n = jump_logreturn rs' x y w (seed c) n.

Lemma path_normal_seeded : forall N d i j a,
  path_normal rs c N d i j a = path_normal rs' c N d i j a.
Proof.
  intros. unfold path_normal, base_normal. rewrite Hnormal, Huniform, Hinv. reflexivity.
Qed.

Lemma log_increment_seeded : forall N d assets l zs zs' i j a,
  (forall j' a', zs j' a' = zs' j' a') ->
  log_increment rs c N d assets l zs i j a = log_increment rs' c N d assets l zs' i j a.
Proof.
  intros N d assets l zs zs' i j a Hz. unfold log_increment.
  assert (E : map (zs j) (seq 0 d) = map (zs' j) (seq 0 d))
    by (apply map_ext; intros; apply Hz).
  rewrite E. destruct (nth a assets default_asset); [reflexivity|].
  rewrite Hjump. reflexivity.
Qed.

Lemma path_of_seeded : forall assets l i,
  path_of rs c assets l i = path_of rs' c assets l i.
Proof.
  intros assets l i. unfold path_of, path_from, price_from.
  apply map_ext. intros j. apply map_ext. intros a. f_equal. f_equal. f_equal.
  apply map_ext. intros m0. apply log_increment_seeded.
  intros. apply path_normal_seeded.
Qed.

Lemma generate_seeded : forall nm m, generate rs nm m c = generate rs' nm m c.
Proof.
  intros nm m. rewrite !generate_eq. destruct (validate nm m c) as [[assets l]|]; [|reflexivity].
  f_equal. apply map_ext. intros i. apply path_of_seeded.
Qed.

Lemma price_seeded : forall nm m spec, price rs nm m c spec = price rs' nm m c spec.
Proof. intros. unfold price. rewrite generate_seeded. reflexivity. Qed.

End SeededStreams.

Lemma concat_ranges : forall (A : Type) (f : nat -> A) sizes start,
  concat (map (fun r => map f (seq (fst r) (snd r))) (ranges start sizes)) =
  map f (seq start (list_sum sizes)).
Proof.
  intros A f sizes. induction sizes as [|s0 sizes IH]; intros start; [reflexivity|].
  simpl. rewrite IH, seq_app, map_app. reflexivity.
Qed.

Lemma worker_batches : forall rs c assets l sizes,
  map (worker_paths rs c (assets, l)) (ranges 0 sizes) =
  map (fun r => map (path_of rs c assets l) (seq (fst r) (snd r))) (ranges 0 sizes).
Proof. reflexivity. Qed.

Lemma generate_parallel_eq : forall rs nm m c sizes,
  list_sum sizes = paths c -> generate_parallel rs nm m c sizes = generate rs nm m c.
Proof.
  intros rs nm m c sizes Hs. rewrite generate_eq. unfold generate_parallel.
  destruct (validate nm m c) as [[assets l]|]; [|reflexivity].
  rewrite worker_batches, concat_ranges, Hs. reflexivity.
Qed.

Lemma sum_app : forall l1 l2, sum (l1 ++ l2) = sum l1 + sum l2.
Proof. intros l1 l2. induction l1 as [|x l1 IH]; simpl; [ring|rewrite IH; ring]. Qed.

Lemma sumsq_app : forall l1 l2, sumsq (l1 ++ l2) = sumsq l1 + sumsq l2.
Proof. intros. unfold sumsq. rewrite map_app. apply sum_app. Qed.

Lemma sum_sq_dev : forall l a,
  sum (map (fun x => (x - a) ^ 2) l) = sumsq l - 2 * a * sum l + INR (length l) * a ^ 2.
Proof.
  intros l a. unfold sumsq, sum. induction l as [|x l IH]; cbn [map fold_right length].
  - simpl. ring.
  - rewrite IH, S_INR. ring.
Qed.

Lemma m2_stats : forall l, l <> [] ->
  m2 l = sumsq l - sum l ^ 2 / INR (length l).
Proof.
  intros l Hl. unfold m2, mean. rewrite sum_sq_dev.
  assert (Hn : INR (length l) <> 0).
  { apply not_0_INR. destruct l; [congruence|discriminate]. }
  field. exact Hn.
Qed.

Lemma sum_sq_nonneg : forall a l, 0 <= sum (map (fun x => (x - a) ^ 2) l).
Proof.
  intros a l. unfold sum. induction l as [|x l IH]; cbn [map fold_right]; [lra|].
  apply Rplus_le_le_0_compat; [apply pow2_ge_0|exact IH].
Qed.

Lemma m2_nonneg_list : forall l, 0 <= m2 l.
Proof. intros l. apply sum_sq_nonneg. Qed.

Lemma list_stats_ok : forall l, stats_ok (length l) (sum l) (sumsq l).
Proof.
  intros l. split; [|split]; intros Hn.
  - destruct l; [|discriminate]. split; reflexivity.
  - destruct l as [|x [|y l]]; try discriminate. unfold sumsq; simpl. ring.
  - assert (Hl : l <> []) by (destruct l; [simpl in Hn; lia|discriminate]).
    rewrite <- (m2_stats l Hl). apply m2_nonneg_list.
Qed.

Lemma aggregate_build : forall z l,
  aggregate z l = build z (length l) (sum l) (sumsq l).
Proof.
  intros z l. unfold aggregate, build, mean.
  destruct l as [|x l'].
  - simpl. unfold m2, mean. simpl. unfold sumsq. simpl.
    replace (0 - 0 * (0 * 1) / 0) with 0 by (unfold Rdiv; rewrite Rinv_0; ring).
    reflexivity.
  - rewrite (m2_stats (x :: l')) by discriminate. reflexivity.
Qed.

Lemma merge2_aggregate : forall z l1 l2,
  merge2 z (aggregate z l1) (aggregate z l2) = aggregate z (l1 ++ l2).
Proof.
  intros z l1 l2. rewrite merge2_build, !aggregate_build.
  destruct (build_stats z _ _ _ (list_stats_ok l1)) as [N1 [S1 Q1]].
  destruct (build_stats z _ _ _ (list_stats_ok l2)) as [N2 [S2 Q2]].
  rewrite N1, S1, Q1, N2, S2, Q2, length_app, sum_app, sumsq_app. reflexivity.
Qed.

Lemma fold_merge_aggregate : forall z ls l0,
  fold_left (merge2 z) (map (aggregate z) ls) (aggregate z l0) = aggregate z (l0 ++ concat ls).
Proof.
  intros z ls. induction ls as [|l ls IH]; intros l0; simpl.
  - rewrite app_nil_r. reflexivity.
  - rewrite merge2_aggregate, IH, app_assoc. reflexivity.
Qed.

Lemma merge_aggregate : forall z ls,
  match merge z (map (aggregate z) ls) with
  | Some r => r | None => aggregate z [] end = aggregate z (concat ls).
Proof.
  intros z [|l ls]; [reflexivity|]. simpl. apply fold_merge_aggregate.
Qed.

Lemma pair_avg_app : forall n l1 l2, length l1 = (2 * n)%nat ->
  pair_avg (l1 ++ l2) = pair_avg l1 ++ pair_avg l2.
Proof.
  intros n. induction n as [|n IH]; intros l1 l2 Hl.
  - destruct l1; [reflexivity|discriminate].
  - destruct l1 as [|x [|y l1]]; try (simpl in Hl; lia).
    simpl. f_equal. apply IH. simpl in Hl. lia.
Qed.

Lemma pair_avg_concat : forall ls,
  (forall w, (S w < length ls)%nat -> Nat.Even (length (nth w ls []))) ->
  pair_avg (concat ls) = concat (map pair_avg ls).
Proof.
  intros ls. induction ls as [|l ls IH]; intros H; [reflexivity|].
  destruct ls as [|l' ls'].
  - simpl. rewrite !app_nil_r. reflexivity.
  - simpl concat. simpl map. simpl concat.
    destruct (H 0%nat ltac:(simpl; lia)) as [n Hn]. simpl in Hn.
    rewrite (pair_avg_app n) by lia. f_equal.
    apply IH. intros w Hw. apply (H (S w)). simpl in *. lia.
Qed.

Lemma observations_concat : forall c ls,
  (antithetic (plan c) = true ->
     forall w, (S w < length ls)%nat -> Nat.Even (length (nth w ls []))) ->
  observations c (concat ls) = concat (map (observations c) ls).
Proof.
  intros c ls H. unfold observations. destruct (antithetic (plan c)).
  - apply pair_avg_concat, H. reflexivity.
  - rewrite map_id. reflexivity.
Qed.

Lemma length_nth_ranges : forall sizes start w, (w < length sizes)%nat ->
  snd (nth w (ranges start sizes) (0, 0)%nat) = nth w sizes 0%nat.
Proof.
  intros sizes. induction sizes as [|s0 sizes IH]; intros start w Hw; [simpl in Hw; lia|].
  destruct w; [reflexivity|]. simpl. apply IH. simpl in Hw. lia.
Qed.

Lemma length_ranges : forall sizes start, length (ranges start sizes) = length sizes.
Proof. intros sizes. induction sizes; intros; simpl; [reflexivity|f_equal; auto]. Qed.

Lemma nth_map_length : forall (A B : Type) (f : A -> list B) (l : list A) d w,
  (w < length l)%nat -> nth w (map f l) [] = f (nth w l d).
Proof.
  intros A B f l d w Hw.
  rewrite (nth_indep (map f l) [] (f d)) by (rewrite length_map; exact Hw).
  apply map_nth.
Qed.

Lemma price_parallel_eq : forall rs nm m c spec sizes,
  list_sum sizes = paths c ->
  (antithetic (plan c) = true ->
     forall w, (S w < length sizes)%nat -> Nat.Even (nth w sizes 0%nat)) ->
  price_parallel rs nm m c spec sizes = price rs nm m c spec.
Proof.
  intros rs nm m c spec sizes Hs Hev. unfold price. rewrite generate_eq.
  unfold price_parallel. cbv zeta.
  destruct (validate nm m c) as [[assets l]|]; [|reflexivity].
  set (z := z_quantile nm (confidence_level c)).
  set (batches := map (worker_paths rs c (assets, l)) (ranges 0 sizes)).
  assert (Hcat : concat batches = map (path_of rs c assets l) (seq 0 (paths c)))
    by (unfold batches; rewrite worker_batches, concat_ranges, Hs; reflexivity).
  assert (Hnb : length batches = length sizes)
    by (unfold batches; rewrite length_map, length_ranges; reflexivity).
  assert (Hlen : forall w, (w < length sizes)%nat -> length (nth w batches []) = nth w sizes 0%nat).
  { intros w Hw. unfold batches.
    rewrite (nth_map_length _ _ (worker_paths rs c (assets, l)) _ (0, 0)%nat)
      by (rewrite length_ranges; exact Hw).
    unfold worker_paths. rewrite length_map, length_seq.
    apply length_nth_ranges, Hw. }
  rewrite <- Hcat.
  destruct spec as [k ty|k ty]; [|reflexivity].
  set (cf := cashflows nm m c (European k ty)).
  replace (map (fun ps => aggregate z (observations c (cf ps))) batches)
    with (map (aggregate z) (map (fun ps => observations c (cf ps)) batches))
    by (rewrite map_map; reflexivity).
  assert (Hcf : cf (concat batches) = concat (map cf batches)).
  { unfold cf, cashflows. cbv beta iota zeta. rewrite concat_map. reflexivity. }
  assert (Hobs : concat (map (fun ps => observations c (cf ps)) batches) =
                 observations c (cf (concat batches))).
  { rewrite Hcf, observations_concat, map_map; [reflexivity|].
    intros Ha w Hw. rewrite length_map, Hnb in Hw.
    rewrite (nth_map_length _ _ cf _ []) by lia.
    unfold cf, cashflows. cbv beta iota zeta. rewrite length_map, Hlen by lia.
    apply Hev; assumption. }
  pose proof (merge_aggregate z (map (fun ps => observations c (cf ps)) batches)) as HM.
  rewrite Hobs in HM.
  destruct (merge z (map (aggregate z) (map (fun ps => observations c (cf ps)) batches)));
    rewrite HM; reflexivity.
Qed.

(** In binary64, one worker's estimate for the put of strike 1 over
    the paths ending at 0.1, 0.2, 0.3, 0.4 is 0.7499999999999999, two
    workers of two paths each give 0.75. *)
Lemma binary64_merge_instance :
  list_sum [2; 2]%nat = length Binary64.cex_paths /\
  Forall (fun s => (2 <= s)%nat) [2; 2]%nat /\
  Binary64.price_parallel Binary64.cex_z Binary64.cex_disc Binary64.cex_strike Put 1
    Binary64.cex_paths [2; 2]%nat <>
  Binary64.price Binary64.cex_z Binary64.cex_disc Binary64.cex_strike Put 1 Binary64.cex_paths.
Proof.
  split; [reflexivity|split; [repeat constructor|]].
  intros H. apply (f_equal Binary64.estimate) in H.
  assert (E : PrimFloat.ltb
                (Binary64.estimate (Binary64.price Binary64.cex_z Binary64.cex_disc
                   Binary64.cex_strike Put 1 Binary64.cex_paths))
                (Binary64.estimate (Binary64.price_parallel Binary64.cex_z Binary64.cex_disc
                   Binary64.cex_strike Put 1 Binary64.cex_paths [2; 2]%nat)) = true)
    by (vm_compute; reflexivity).
  rewrite H in E. vm_compute in E. discriminate.
Qed.

(** C3 (counterexample): merging the workers' results in binary64
    arithmetic, two workers of two paths each do not reproduce the
    single-worker PricingResult of the same four paths. *)
Lemma C3_worker_count_changes_binary64_result :
  list_sum [2; 2]%nat = length Binary64.cex_paths /\
  Binary64.price_parallel Binary64.cex_z Binary64.cex_disc Binary64.cex_strike Put 1
    Binary64.cex_paths [2; 2]%nat <>
  Binary64.price Binary64.cex_z Binary64.cex_disc Binary64.cex_strike Put 1 Binary64.cex_paths.
Proof.
  destruct binary64_merge_instance as [H1 [_ H2]]. split; assumption.
Qed.

(** C3 (amended): path generation and pricing are deterministic
    functions of the model, the configuration and the seeded random
    streams: two random sources that agree on the streams of
    [config.seed] produce the same PathSet and the same PricingResult.
    Splitting the paths over any number of workers (ranges of sizes
    summing to num_paths, each range of an antithetic plan but the last
    holding whole pairs) reproduces the single-worker PathSet, and, in
    exact arithmetic, the single-worker PricingResult; merged in
    binary64 arithmetic, the workers' results depend on the split, even
    when every worker holds at least two paths. *)
Theorem C3_determinism_and_exact_worker_invariance :
  (forall rs rs' nm m c spec sizes,
    normal rs (seed c) = normal rs' (seed c) ->
    uniform rs (seed c) = uniform rs' (seed c) ->
    inv_norm_cdf rs = inv_norm_cdf rs' ->
    (forall x y w n, jump_logreturn rs x y w (seed c) n = jump_logreturn rs' x y w (seed c) n) ->
    list_sum sizes = paths c ->
    (antithetic (plan c) = true ->
       forall w, (S w < length sizes)%nat -> Nat.Even (nth w sizes 0%nat)) ->
    generate rs nm m c = generate rs' nm m c /\
    price rs nm m c spec = price rs' nm m c spec /\
    generate_parallel rs nm m c sizes = generate rs nm m c /\
    price_parallel rs nm m c spec sizes = price rs nm m c spec) /\
  exists z disc k ty N ps sizes,
    list_sum sizes = length ps /\ Forall (fun s => (2 <= s)%nat) sizes /\
    Binary64.price_parallel z disc k ty N ps sizes <> Binary64.price z disc k ty N ps.
Proof.
  split.
  - intros rs rs' nm m c spec sizes H1 H2 H3 H4 Hs Hev.
    split; [|split; [|split]].
    + apply generate_seeded; assumption.
    + apply price_seeded; assumption.
    + apply generate_parallel_eq, Hs.
    + apply price_parallel_eq; assumption.
  - exists Binary64.cex_z, Binary64.cex_disc, Binary64.cex_strike, Put, 1%nat,
      Binary64.cex_paths, [2; 2]%nat.
    exact binary64_merge_instance.
Qed.

Lemma C3_determinism_and_exact_worker_invariance_witness :
  generate_parallel zero_source singular_numerics cex_model anti_config [2; 1]%nat =
    generate zero_source singular_numerics cex_model anti_config /\
  price_parallel zero_source singular_numerics cex_model anti_config (European 100 Put) [2; 1]%nat =
    price zero_source singular_numerics cex_model anti_config (European 100 Put).
Proof.
  assert (Hev : antithetic (plan anti_config) = true ->
                forall w, (S w < length [2; 1]%nat)%nat -> Nat.Even (nth w [2; 1]%nat 0%nat)).
  { intros _ w Hw. destruct w as [|w]; [exists 1%nat; reflexivity|simpl in Hw; lia]. }
  destruct (proj1 C3_determinism_and_exact_worker_invariance zero_source zero_source
              singular_numerics cex_model anti_config (European 100 Put) [2; 1]%nat
              eq_refl eq_refl eq_refl (fun _ _ _ _ => eq_refl) eq_refl Hev)
    as [_ [_ [A B]]].
  split; [exact A|exact B].
Defined.

(** *** Geometric Brownian motion *)

Lemma validate_single : forall nm a c assets l,
  validate nm (Single a) c = Some (assets, l) -> assets = [a] /\ l = [[1]].
Proof.
  intros nm a c assets l Hv. unfold validate in Hv.
  destruct (num_paths c <=? 0)%Z; [discriminate|].
  destruct (num_steps c <=? 0)%Z; [discriminate|].
  destruct (Rle_dec (dt c) 0); [discriminate|].
  destruct (vol_ok a); [|discriminate]. injection Hv as <- <-. split; reflexivity.
Qed.

Lemma gbm_log_increment : forall rs c N s0 mu sigma zs i j,
  log_increment rs c N 1 [GeometricBrownianMotion s0 mu sigma] [[1]] zs i j 0 =
  (mu - 0.5 * sigma ^ 2) * dt c + sigma * sqrt (dt c) * zs j 0%nat.
Proof. intros. unfold log_increment. cbn [nth dot map seq]. ring. Qed.

Lemma nth_seq_map : forall (B : Type) (f : nat -> B) n i d,
  (i < n)%nat -> nth i (map f (seq 0 n)) d = f i.
Proof.
  intros B f n i d Hi.
  rewrite (nth_indep (map f (seq 0 n)) d (f 0%nat)) by (rewrite length_map, length_seq; exact Hi).
  rewrite map_nth, seq_nth by exact Hi. reflexivity.
Qed.

(** The price of a single-asset GBM path at step [j]. *)
Lemma gbm_state_at : forall rs nm s0 mu sigma c ps i j,
  generate rs nm (Single (GeometricBrownianMotion s0 mu sigma)) c = Ok ps ->
  (i < paths c)%nat -> (j < steps c)%nat ->
  state_at (nth i ps []) j =
  s0 * exp (sum (map (fun m0 => (mu - 0.5 * sigma ^ 2) * dt c +
                                sigma * sqrt (dt c) * path_normal rs c (steps c) 1 i m0 0)
                     (seq 0 (S j)))).
Proof.
  intros rs nm s0 mu sigma c ps i j Hg Hi Hj. rewrite generate_eq in Hg.
  destruct (validate nm _ c) as [[assets l]|] eqn:Hv; [|discriminate].
  apply validate_single in Hv. destruct Hv as [-> ->]. injection Hg as <-.
  rewrite nth_seq_map by exact Hi.
  unfold state_at, path_of, path_from. cbv zeta.
  rewrite nth_seq_map by exact Hj.
  change (length [GeometricBrownianMotion s0 mu sigma]) with 1%nat.
  rewrite nth_seq_map by lia.
  unfold price_from.
  change (nth 0 [GeometricBrownianMotion s0 mu sigma] default_asset)
    with (GeometricBrownianMotion s0 mu sigma).
  cbn [asset_spot]. f_equal. f_equal. f_equal. apply map_ext. intros m0.
  apply gbm_log_increment.
Qed.

Lemma sum_seq_S : forall (f : nat -> R) n,
  sum (map f (seq 0 (S n))) = sum (map f (seq 0 n)) + f n.
Proof.
  intros f n. rewrite seq_S, map_app, sum_app. simpl. unfold sum. simpl. ring.
Qed.

Lemma cex_dt : dt cex_config = 1.
Proof. unfold dt. simpl. field. Qed.

Lemma cex_validate :
  validate singular_numerics cex_model cex_config =
  Some ([GeometricBrownianMotion 100 0 1], [[1]]).
Proof.
  unfold validate. simpl.
  destruct (Rle_dec (dt cex_config) 0) as [H|H]; [rewrite cex_dt in H; lra|].
  unfold vol_ok. simpl. destruct (Rlt_dec 0 1); [reflexivity|lra].
Qed.

(** C7: for geometric Brownian motion the step is dt = T / num_steps and
    the log-price increment of every step (the first one measured from
    the spot) is (drift - 0.5 volatility^2) dt + volatility sqrt(dt) Z,
    Z the path's normal draw for that step. *)
Theorem C7_gbm_log_increment : forall rs nm s0 mu sigma c ps i,
  generate rs nm (Single (GeometricBrownianMotion s0 mu sigma)) c = Ok ps ->
  0 < s0 -> (i < paths c)%nat ->
  let p := nth i ps [] in
  let inc := fun j => (mu - 0.5 * sigma ^ 2) * dt c +
                      sigma * sqrt (dt c) * path_normal rs c (steps c) 1 i j 0 in
  dt c = horizon c / IZR (num_steps c) /\
  ln (state_at p 0) - ln s0 = inc 0%nat /\
  (forall j, (S j < steps c)%nat -> ln (state_at p (S j)) - ln (state_at p j) = inc (S j)).
Proof.
  intros rs nm s0 mu sigma c ps i Hg Hs Hi p inc.
  assert (Hn : (0 < steps c)%nat).
  { rewrite generate_eq in Hg. unfold validate in Hg.
    destruct (Z.leb_spec (num_paths c) 0); [discriminate|].
    destruct (Z.leb_spec (num_steps c) 0); [discriminate|]. unfold steps. lia. }
  assert (Hst : forall j, (j < steps c)%nat ->
            ln (state_at p j) = ln s0 + sum (map inc (seq 0 (S j)))).
  { intros j Hj. unfold p. rewrite (gbm_state_at rs nm s0 mu sigma c ps i j Hg Hi Hj).
    rewrite ln_mult by (apply exp_pos || exact Hs). rewrite ln_exp. reflexivity. }
  split; [reflexivity|split].
  - rewrite Hst by exact Hn. unfold sum. simpl. ring.
  - intros j Hj. rewrite Hst by exact Hj. rewrite Hst by lia.
    rewrite (sum_seq_S inc (S j)). ring.
Qed.

Lemma C7_gbm_log_increment_witness :
  let ps := map (path_of cex_source cex_config [GeometricBrownianMotion 100 0 1] [[1]])
                (seq 0 (paths cex_config)) in
  generate cex_source singular_numerics cex_model cex_config = Ok ps /\
  ln (state_at (nth 0 ps []) 1) - ln (state_at (nth 0 ps []) 0) =
  (0 - 0.5 * 1 ^ 2) * dt cex_config +
  1 * sqrt (dt cex_config) * path_normal cex_source cex_config (steps cex_config) 1 0 1 0.
Proof.
  intros ps.
  assert (Hg : generate cex_source singular_numerics cex_model cex_config = Ok ps)
    by (rewrite generate_eq, cex_validate; reflexivity).
  split; [exact Hg|].
  assert (Hs : 0 < 100) by lra.
  assert (Hi : (0 < paths cex_config)%nat) by (vm_compute; lia).
  assert (Hj : (1 < steps cex_config)%nat) by (vm_compute; lia).
  destruct (C7_gbm_log_increment cex_source singular_numerics 100 0 1 cex_config ps 0%nat
              Hg Hs Hi) as [_ [_ H]].
  exact (H 0%nat Hj).
Defined.

(** *** Antithetic pairs *)

Lemma div_affine : forall a b c, b <> 0%nat -> (c < b)%nat -> ((a * b + c) / b)%nat = a.
Proof.
  intros a b c Hb Hc. rewrite Nat.div_add_l by exact Hb.
  rewrite Nat.div_small by exact Hc. lia.
Qed.

Lemma draw_index_block : forall N d b j a, (j < N)%nat -> (a < d)%nat ->
  ((draw_index N d b j a / d) / N)%nat = b.
Proof.
  intros N d b j a Hj Ha. unfold draw_index.
  rewrite div_affine by lia. apply div_affine; lia.
Qed.

Lemma path_normal_pair : forall rs c N d k j a,
  antithetic (plan c) = true ->
  path_normal rs c N d (2 * k) j a = base_normal rs c N d k j a /\
  path_normal rs c N d (2 * k + 1) j a = - base_normal rs c N d k j a.
Proof.
  intros rs c N d k j a Ha. unfold path_normal, block_of. rewrite Ha.
  replace (2 * k / 2)%nat with k by (symmetry; rewrite Nat.mul_comm; rewrite <- (Nat.add_0_r (k * 2)); apply div_affine; lia).
  replace ((2 * k + 1) / 2)%nat with k by (symmetry; rewrite Nat.mul_comm; apply div_affine; lia).
  rewrite Nat.odd_mul, Nat.add_comm, Nat.odd_add_mul_2. split; reflexivity.
Qed.

Lemma path_from_zs_ext : forall rs c assets l zs zs' i,
  (forall j a, zs j a = zs' j a) ->
  path_from rs c assets l zs i = path_from rs c assets l zs' i.
Proof.
  intros rs c assets l zs zs' i Hz. unfold path_from, price_from.
  apply map_ext. intros j. apply map_ext. intros a. do 3 f_equal.
  apply map_ext. intros m0.
  apply (log_increment_seeded rs rs c (fun _ _ _ _ => eq_refl)).
  exact Hz.
Qed.

Lemma anti_validate :
  validate singular_numerics cex_model anti_config =
  Some ([GeometricBrownianMotion 100 0 1], [[1]]).
Proof.
  unfold validate. simpl.
  destruct (Rle_dec (dt anti_config) 0) as [H|H]; [unfold dt in H; simpl in H; lra|].
  unfold vol_ok. simpl. destruct (Rlt_dec 0 1); [reflexivity|lra].
Qed.

(** C9: under an antithetic plan the paths [2k] and [2k+1] are driven
    by the draws [Z] of block [k] and by [-Z]; the draws of distinct
    blocks come from disjoint positions of the random stream. *)
Theorem C9_antithetic_mirrored_pairs : forall rs nm m c ps k,
  antithetic (plan c) = true ->
  generate rs nm m c = Ok ps ->
  (2 * k + 1 < paths c)%nat ->
  (exists assets l,
     let zk := fun j a => base_normal rs c (steps c) (length assets) k j a in
     nth (2 * k) ps [] = path_from rs c assets l zk (2 * k) /\
     nth (2 * k + 1) ps [] = path_from rs c assets l (fun j a => - zk j a) (2 * k + 1)) /\
  (forall N d j a,
     path_normal rs c N d (2 * k) j a = base_normal rs c N d k j a /\
     path_normal rs c N d (2 * k + 1) j a = - base_normal rs c N d k j a) /\
  (forall k' N d j a j' a', k <> k' -> (j < N)%nat -> (a < d)%nat ->
     (j' < N)%nat -> (a' < d)%nat -> draw_index N d k j a <> draw_index N d k' j' a').
Proof.
  intros rs nm m c ps k Ha Hg Hk. split; [|split].
  - rewrite generate_eq in Hg.
    destruct (validate nm m c) as [[assets l]|]; [|discriminate].
    injection Hg as <-. exists assets, l. cbv zeta.
    rewrite !nth_seq_map by lia. unfold path_of. split; apply path_from_zs_ext;
      intros j a; apply path_normal_pair, Ha.
  - intros N d j a. apply path_normal_pair, Ha.
  - intros k' N d j a j' a' Hne Hj Ha' Hj' Ha'' Heq. apply Hne.
    rewrite <- (draw_index_block N d k j a), <- (draw_index_block N d k' j' a') by assumption.
    rewrite Heq. reflexivity.
Qed.

Lemma C9_antithetic_mirrored_pairs_witness :
  let ps := map (path_of zero_source anti_config [GeometricBrownianMotion 100 0 1] [[1]])
                (seq 0 (paths anti_config)) in
  generate zero_source singular_numerics cex_model anti_config = Ok ps /\
  path_normal zero_source anti_config 2 1 1 0 0 = - base_normal zero_source anti_config 2 1 0 0 0.
Proof.
  intros ps.
  assert (Hg : generate zero_source singular_numerics cex_model anti_config = Ok ps)
    by (rewrite generate_eq, anti_validate; reflexivity).
  assert (Hk : (2 * 0 + 1 < paths anti_config)%nat) by (vm_compute; lia).
  split; [exact Hg|].
  destruct (C9_antithetic_mirrored_pairs zero_source singular_numerics cex_model anti_config
              ps 0%nat eq_refl Hg Hk) as [_ [H _]].
  exact (proj2 (H 2%nat 1%nat 0%nat 0%nat)).
Defined.

(** *** American versus European on one path *)

Lemma cex_path :
  path_of cex_source cex_config [GeometricBrownianMotion 100 0 1] [[1]] 0 = [[90]; [50]].
Proof.
  unfold path_of, path_from. cbv zeta.
  change (steps cex_config) with 2%nat.
  change (length [GeometricBrownianMotion 100 0 1]) with 1%nat.
  cbn [seq map].
  assert (Hinc : forall j, log_increment cex_source cex_config 2 1 [GeometricBrownianMotion 100 0 1]
                       [[1]] (path_normal cex_source cex_config 2 1 0) 0 j 0 =
                     path_normal cex_source cex_config 2 1 0 j 0 - 0.5).
  { intros j. rewrite gbm_log_increment, cex_dt, sqrt_1. ring. }
  assert (Z0 : path_normal cex_source cex_config 2 1 0 0 0 = ln (9 / 10) + 0.5) by reflexivity.
  assert (Z1 : path_normal cex_source cex_config 2 1 0 1 0 = ln (5 / 9) + 0.5) by reflexivity.
  unfold price_from. cbn [seq map]. rewrite !Hinc, Z0, Z1.
  change (nth 0 [GeometricBrownianMotion 100 0 1] default_asset)
    with (GeometricBrownianMotion 100 0 1).
  cbn [asset_spot]. unfold sum. cbn [fold_right].
  replace (ln (9 / 10) + 0.5 - 0.5 + 0) with (ln (9 / 10)) by ring.
  replace (ln (9 / 10) + 0.5 - 0.5 + (ln (5 / 9) + 0.5 - 0.5 + 0))
    with (ln (9 / 10) + ln (5 / 9)) by ring.
  rewrite exp_plus, !exp_ln by lra.
  replace (100 * (9 / 10)) with 90 by field.
  replace (100 * (9 / 10 * (5 / 9))) with 50 by field. reflexivity.
Qed.

Lemma cex_generate :
  generate cex_source singular_numerics cex_model cex_config = Ok cex_paths.
Proof.
  rewrite generate_eq, cex_validate. change (paths cex_config) with 1%nat.
  cbn [seq map]. rewrite cex_path. reflexivity.
Qed.

Lemma put100 : forall s, s <= 100 -> exercise_value Put 100 s = 100 - s.
Proof. intros s Hs. unfold exercise_value. apply Rmax_left. lra. Qed.

Lemma cex_rate : rate cex_model = 0.
Proof. reflexivity. Qed.

Lemma cex_european_cf :
  cashflows singular_numerics cex_model cex_config (European 100 Put) cex_paths = [50].
Proof.
  unfold cashflows. rewrite cex_rate. unfold cex_paths. cbn [map].
  change (state_at [[90]; [50]] (steps cex_config - 1)) with 50.
  rewrite put100 by lra.
  replace (- (0 * horizon cex_config)) with 0 by ring. rewrite exp_0.
  f_equal. ring.
Qed.

Lemma cex_american_cf :
  cashflows singular_numerics cex_model cex_config (American 100 Put) cex_paths = [10].
Proof.
  unfold cashflows. rewrite cex_rate, cex_dt.
  replace (- (0 * 1)) with 0 by ring. rewrite exp_0.
  set (h := exercise_value Put 100).
  set (cf := lsm_cashflows singular_numerics h 1 (steps cex_config) cex_paths).
  assert (Hl : length cf = 1%nat).
  { unfold cf, lsm_cashflows. rewrite length_backward; [reflexivity|].
    unfold terminal_cashflows. apply length_map. }
  assert (E : cf = [nth 0 cf 0]) by (destruct cf as [|x [|y l]]; simpl in Hl; [lia|reflexivity|lia]).
  rewrite E. cbn [map]. f_equal. f_equal.
  assert (Hcf : nth 0 cf 0 = nth 0 (lsm_step singular_numerics h 1 cex_paths 0
                                       (terminal_cashflows h 2 cex_paths)) 0) by reflexivity.
  rewrite Hcf, lsm_step_nth by (simpl; lia). cbv zeta.
  change (state_at (nth 0 cex_paths []) 0) with 90.
  assert (H90 : h 90 = 10) by (unfold h; rewrite put100; lra).
  assert (Hc : continuation singular_numerics
                 (regression_data h 1 cex_paths 0 (terminal_cashflows h 2 cex_paths)) 90 = 0).
  { unfold continuation, regression_data. cbn [map combine].
    destruct (filter _ _) as [|p0 [|p1 l]] eqn:Ef; try reflexivity.
    simpl in Ef. destruct (itm h (state_at [[90]; [50]] 0)); simpl in Ef; discriminate. }
  rewrite Hc, H90. unfold itm. rewrite H90.
  destruct (Rlt_dec 0 10) as [_|N]; [|lra].
  destruct (Rlt_dec 0 10) as [_|N]; [ring|lra].
Qed.

Lemma estimate_single : forall z x, estimate (aggregate z [x]) = x.
Proof. intros z x. unfold aggregate, mean, sum. simpl. field. Qed.

Lemma exp_pow : forall x n, exp x ^ n = exp (INR n * x).
Proof.
  intros x n. induction n as [|n IH].
  - simpl. rewrite Rmult_0_l, exp_0. reflexivity.
  - rewrite <- Nat.add_1_r at 2. rewrite plus_INR. cbn [pow]. rewrite IH.
    rewrite <- exp_plus. f_equal. simpl. ring.
Qed.

Lemma nth_map_paths : forall (f : Path -> R) (ps : PathSet) i,
  (i < length ps)%nat -> nth i (map f ps) 0 = f (nth i ps []).
Proof.
  intros f ps i Hi. rewrite (nth_indep (map f ps) 0 (f [])) by (rewrite length_map; exact Hi).
  apply map_nth.
Qed.

(** The European discount factor is the per-step factor raised to the
    number of steps. *)
Lemma european_discount : forall m c, (0 < num_steps c)%Z ->
  exp (- (rate m * horizon c)) = exp (- (rate m * dt c)) ^ steps c.
Proof.
  intros m c Hn. rewrite exp_pow. f_equal.
  unfold steps, dt. rewrite INR_IZR_INZ, Z2Nat.id by lia.
  assert (IZR (num_steps c) <> 0) by (apply not_0_IZR; lia).
  field. assumption.
Qed.

Lemma generate_num_steps : forall rs nm m c ps,
  generate rs nm m c = Ok ps -> (0 < num_steps c)%Z.
Proof.
  intros rs nm m c ps Hg. rewrite generate_eq in Hg. unfold validate in Hg.
  destruct (Z.leb_spec (num_paths c) 0); [discriminate|].
  destruct (Z.leb_spec (num_steps c) 0); [discriminate|]. lia.
Qed.

(** One put of strike 100 on a path 100 -> 90 -> 50 whose regression
    is skipped (a single in-the-money path): the pipeline's American
    estimate 10 is below the European estimate 50. *)
Lemma american_below_european_instance :
  exists ra re,
    price cex_source singular_numerics cex_model cex_config (American 100 Put) = Ok ra /\
    price cex_source singular_numerics cex_model cex_config (European 100 Put) = Ok re /\
    estimate ra < estimate re.
Proof.
  unfold price. rewrite cex_generate.
  eexists _, _. split; [reflexivity|split; [reflexivity|]].
  change (observations cex_config ?l) with l.
  rewrite cex_american_cf, cex_european_cf, !estimate_single. lra.
Qed.

(** C10 (counterexample): one put of strike 100 on a path 100 -> 90 ->
    50 whose regression is skipped (a single in-the-money path): the
    pipeline's American estimate 10 is below the European estimate 50. *)
Lemma C10_american_below_european :
  exists ra re,
    price cex_source singular_numerics cex_model cex_config (American 100 Put) = Ok ra /\
    price cex_source singular_numerics cex_model cex_config (European 100 Put) = Ok re /\
    estimate ra < estimate re.
Proof. exact american_below_european_instance. Qed.

(** C10 (amended): on every generated path the European cash flow is
    the payoff at the last step discounted over all [N] steps, while the
    American cash flow is the payoff at the LSM exercise step [tau],
    discounted over [tau+1] steps: [tau] is the first step [t <= N-2]
    at which the path is in the money and its payoff exceeds the fitted
    continuation value of step [t], and [N-1] when there is none.  The
    fitted value is not the true continuation value, so the American
    estimate is not guaranteed to reach the European one: for some
    model, configuration and strike it is below. *)
Theorem C10_lsm_exercise_rule :
  (forall rs nm m c k ty ps i,
    generate rs nm m c = Ok ps -> (i < length ps)%nat ->
    let disc := exp (- (rate m * dt c)) in
    let h := exercise_value ty k in
    let N := steps c in
    let p := nth i ps [] in
    let tau := exercise_step nm h disc N ps i in
    nth i (cashflows nm m c (European k ty) ps) 0 = disc ^ N * h (state_at p (N - 1)) /\
    nth i (cashflows nm m c (American k ty) ps) 0 = disc ^ S tau * h (state_at p tau) /\
    (tau <= N - 1)%nat /\
    (forall t, (t < tau)%nat ->
       exercises nm h disc ps t (cashflows_at nm h disc N ps (S t)) p = false) /\
    ((tau < N - 1)%nat ->
       exercises nm h disc ps tau (cashflows_at nm h disc N ps (S tau)) p = true)) /\
  exists rs nm m c k ty ra re,
    price rs nm m c (American k ty) = Ok ra /\
    price rs nm m c (European k ty) = Ok re /\
    estimate ra < estimate re.
Proof.
  split.
  - intros rs nm m c k ty ps i Hg Hi disc h N p tau.
    pose proof (generate_num_steps rs nm m c ps Hg) as Hn.
    set (f := fun t => exercises nm h disc ps t (cashflows_at nm h disc N ps (S t)) p).
    assert (Htau : tau = first_true f 0 (N - 1)) by reflexivity.
    split; [|split; [|split; [|split]]].
    + unfold cashflows. cbv zeta.
      rewrite (nth_map_paths (fun p0 => exp (- (rate m * horizon c)) *
                                        exercise_value ty k (state_at p0 (steps c - 1))))
        by exact Hi.
      rewrite european_discount by exact Hn. reflexivity.
    + unfold cashflows. cbv zeta. fold disc. fold h. fold N.
      assert (Hl : length (lsm_cashflows nm h disc N ps) = length ps).
      { unfold lsm_cashflows. apply length_backward. unfold terminal_cashflows. apply length_map. }
      rewrite (nth_indep _ 0 ((fun x => disc * x) 0)) by (rewrite length_map, Hl; exact Hi).
      rewrite (map_nth (fun x => disc * x)).
      rewrite lsm_cashflows_at_first_step. unfold cashflows_at.
      rewrite (cf_down_exercise nm h disc N ps i f (fun _ => eq_refl) Hi (N - 1 - 0)) by lia.
      replace (N - 1 - (N - 1 - 0))%nat with 0%nat by lia.
      rewrite Nat.sub_0_r, Nat.sub_0_r, <- Htau. fold p. cbn [pow]. ring.
    + rewrite Htau. apply first_true_le.
    + intros t Ht. apply (first_true_before f (N - 1) 0 t). rewrite <- Htau. lia.
    + intros Ht. rewrite Htau. apply (first_true_hit f (N - 1) 0). rewrite <- Htau. lia.
  - destruct american_below_european_instance as [ra [re H]].
    exists cex_source, singular_numerics, cex_model, cex_config, 100, Put, ra, re. exact H.
Qed.

(** On the path 100 -> 90 -> 50 the skipped regression makes the policy
    exercise at the first step. *)
Lemma cex_exercise_step :
  exercise_step singular_numerics (exercise_value Put 100)
    (exp (- (rate cex_model * dt cex_config))) (steps cex_config) cex_paths 0 = 0%nat.
Proof.
  rewrite cex_rate, cex_dt. replace (- (0 * 1)) with 0 by ring. rewrite exp_0.
  set (h := exercise_value Put 100).
  unfold exercise_step. change (steps cex_config - 1)%nat with 1%nat. cbn [first_true].
  unfold exercises. cbv zeta.
  change (cashflows_at singular_numerics h 1 (steps cex_config) cex_paths 1)
    with (terminal_cashflows h 2 cex_paths).
  change (state_at (nth 0 cex_paths []) 0) with 90.
  assert (H90 : h 90 = 10) by (unfold h; rewrite put100; lra).
  assert (Hc : continuation singular_numerics
                 (regression_data h 1 cex_paths 0 (terminal_cashflows h 2 cex_paths)) 90 = 0).
  { unfold continuation, regression_data. cbn [map combine].
    destruct (filter _ _) as [|p0 [|p1 l]] eqn:Ef; try reflexivity.
    simpl in Ef. destruct (itm h (state_at [[90]; [50]] 0)); simpl in Ef; discriminate. }
  rewrite Hc, H90. unfold itm. rewrite H90.
  destruct (Rlt_dec 0 10) as [_|N]; [reflexivity|lra].
Qed.

Lemma C10_lsm_exercise_rule_witness :
  generate cex_source singular_numerics cex_model cex_config = Ok cex_paths /\
  (0 < length cex_paths)%nat /\
  exercise_step singular_numerics (exercise_value Put 100)
    (exp (- (rate cex_model * dt cex_config))) (steps cex_config) cex_paths 0 = 0%nat /\
  nth 0 (cashflows singular_numerics cex_model cex_config (American 100 Put) cex_paths) 0 =
    exp (- (rate cex_model * dt cex_config)) ^ 1 * exercise_value Put 100 90.
Proof.
  assert (Hi : (0 < length cex_paths)%nat) by (simpl; lia).
  split; [exact cex_generate|split; [exact Hi|split; [exact cex_exercise_step|]]].
  pose proof (proj1 (proj2 (proj1 C10_lsm_exercise_rule cex_source singular_numerics cex_model
                  cex_config 100 Put cex_paths 0%nat cex_generate Hi))) as H.
  cbv zeta in H. rewrite cex_exercise_step in H. exact H.
Defined.

End MCFacts.
